(** * Line-existence query service: matcher strategies and connection handler

    A shallow embedding of [benchmark.py] (the five matcher strategies and
    the benchmark driver) and of [server.py] (dataset loading, query
    processing, the per-connection handler and the accept loop), followed by
    the properties established about them.

    Conventions of the embedding:
    - a Python [str] is the list of its Unicode code points, [bytes] is a
      list of [Byte.byte];
    - Python integers are [Z]; list and string indexing follows Python,
      including the wrap-around of negative indices and [IndexError];
    - a computation ends in one of three ways, see [outcome]: it returns a
      value, it raises an exception, or its loop is still running when the
      fuel given to it is used up;
    - a [dict] is a [gmap], a [set] is a [gset];
    - a function that receives a list object returns, next to its result,
      the content of that object when it finishes (Python passes the list by
      reference, so an in-place change is visible to the caller). *)

From Stdlib Require Import Strings.Byte.
From stdpp Require Import base numbers list strings gmap sorting.

Local Open Scope Z_scope.

(** ** Exceptions and outcomes *)

(** The exceptions the modelled code can meet.  All of them derive from
    Python's [Exception]. *)
Inductive exn : Type :=
| IndexError
| TypeError
| FileNotFoundError
| PermissionError
| ConnectionResetError
| BrokenPipeError
| SSLError
| UnicodeDecodeError
| UnicodeEncodeError
| RuntimeError.

Inductive outcome (A : Type) : Type :=
| Ret (a : A)
| Raise (e : exn)
| Diverge.
Arguments Ret {A} a.
Arguments Raise {A} e.
Arguments Diverge {A}.

(** Sequencing: an exception or a loop that never ends cuts the rest of the
    computation short.  This gives the notation [x ← m; k]. *)
Global Instance outcome_bind : MBind outcome := λ A B f m,
  match m with
  | Ret a => f a
  | Raise e => Raise e
  | Diverge => Diverge
  end.

(** ** Strings, bytes and indexing *)

Definition char := N.
Definition str := list char.
Definition bytes := list byte.

(** A string literal of the source, as code points. *)
Definition str_of (s : string) : str :=
  map Ascii.N_of_ascii (String.list_ascii_of_string s).

(** A bytes literal of the source. *)
Definition bytes_of (s : string) : bytes := String.list_byte_of_string s.

(** [len(x)] *)
Definition len {A} (l : list A) : Z := Z.of_nat (length l).

(** [l[i]] on a list or a string: a negative index counts from the end, an
    index outside [-len(l) .. len(l)-1] raises [IndexError]. *)
Definition getitem {A} (l : list A) (i : Z) : outcome A :=
  let k := if i <? 0 then i + len l else i in
  if (0 <=? k) && (k <? len l) then
    match l !! Z.to_nat k with
    | Some x => Ret x
    | None => Raise IndexError
    end
  else Raise IndexError.

(** [l[i] = x] *)
Definition setitem {A} (l : list A) (i : Z) (x : A) : outcome (list A) :=
  let k := if i <? 0 then i + len l else i in
  if (0 <=? k) && (k <? len l) then Ret (<[Z.to_nat k := x]> l)
  else Raise IndexError.

(** [a < b] on strings: lexicographic on code points. *)
Fixpoint str_ltb (a b : str) : bool :=
  match a, b with
  | _, [] => false
  | [], _ :: _ => true
  | x :: a', y :: b' =>
      if (x <? y)%N then true
      else if (x =? y)%N then str_ltb a' b'
      else false
  end.

(** [a == b] on strings. *)
Definition str_eqb (a b : str) : bool := bool_decide (a = b).

(** The order [list.sort()] sorts by: it only asks [<], and keeps [a] before
    [b] unless [b < a]. *)
Definition str_le (a b : str) : Prop := str_ltb b a = false.

Global Instance str_le_dec a b : Decision (str_le a b).
Proof. unfold str_le. apply _. Defined.

(** ** The matcher strategies ([benchmark.py]) *)

(** [query in file_contents], on a list: a scan by [==]. *)
Fixpoint list_contains (file_contents : list str) (query : str) : bool :=
  match file_contents with
  | [] => false
  | line :: rest => str_eqb line query || list_contains rest query
  end.

Definition linear_search (file_contents : list str) (query : str)
  : outcome bool * list str :=
  (Ret (list_contains file_contents query), file_contents).

(** The [while low <= high] loop of [binary_search]. *)
Fixpoint bisect (fuel : nat) (file_contents : list str) (query : str)
    (low high : Z) : outcome bool :=
  match fuel with
  | O => Diverge
  | S fuel' =>
      if low <=? high then
        let mid := (low + high) `div` 2 in
        x ← getitem file_contents mid ;
        if str_eqb x query then Ret true
        else if str_ltb x query then
          bisect fuel' file_contents query (mid + 1) high
        else
          bisect fuel' file_contents query low (mid - 1)
      else Ret false
  end.

(** [file_contents.sort()] sorts the caller's list in place; the loop then
    runs on the sorted list.  The interval [low..high] shrinks at every
    turn, so [len + 1] turns always suffice ([bisect_fuel]). *)
Definition binary_search (file_contents : list str) (query : str)
  : outcome bool * list str :=
  let file_contents := merge_sort str_le file_contents in
  (bisect (S (length file_contents)) file_contents query
          0 (len file_contents - 1),
   file_contents).

Definition hash_table_search (file_contents : list str) (query : str)
  : outcome bool * list str :=
  let file_set : gset str := list_to_set file_contents in
  (Ret (bool_decide (query ∈ file_set)), file_contents).

(** [range(a, b)] *)
Definition range (a b : Z) : list Z := seqZ a (b - a).

(** A [for x in xs] loop whose body updates the loop state [st] and may
    raise.  The loop variable is bound afresh from [xs] at every turn. *)
Fixpoint for_in {S A} (body : S → A → outcome S) (st : S) (xs : list A)
  : outcome S :=
  match xs with
  | [] => Ret st
  | x :: xs' => st' ← body st x; for_in body st' xs'
  end.

(** *** Knuth-Morris-Pratt *)

(** One turn of the [for i in range(1, len(pattern))] loop of [kmp_table],
    on the state [(table, j)].  In the branch [j != 0] the source also
    executes [i -= 1]; the [for] statement assigns the next element of the
    range to [i] at the next turn whatever the body did to it, so that
    assignment changes nothing and the position [i] is left with its initial
    entry [0]. *)
Definition kmp_table_step (pattern : str) (st : list Z * Z) (i : Z)
  : outcome (list Z * Z) :=
  let '(table, j) := st in
  pi ← getitem pattern i;
  pj ← getitem pattern j;
  if bool_decide (pi = pj) then
    let j := j + 1 in
    table ← setitem table i j;
    Ret (table, j)
  else if bool_decide (j ≠ 0) then
    j ← getitem table (j - 1);
    Ret (table, j)
  else
    table ← setitem table i 0;
    Ret (table, j).

Definition kmp_table (pattern : str) : outcome (list Z) :=
  let table := replicate (length pattern) 0 in
  let j := 0 in
  st ← for_in (kmp_table_step pattern) (table, j) (range 1 (len pattern));
  Ret st.1.

(** The [while i < n] loop of [kmp_search] on one line.  [Ret true] is the
    [return True] of the source, [Ret false] the end of the loop. *)
Fixpoint kmp_scan (fuel : nat) (pattern text : str) (table : list Z)
    (i j : Z) : outcome bool :=
  match fuel with
  | O => Diverge
  | S fuel' =>
      let m := len pattern in
      let n := len text in
      if i <? n then
        pj ← getitem pattern j;
        ti ← getitem text i;
        let '(i, j) :=
          if bool_decide (pj = ti) then (i + 1, j + 1) else (i, j) in
        if j =? m then Ret true
        else
          mismatch ←
            (if i <? n then
               pj ← getitem pattern j;
               ti ← getitem text i;
               Ret (bool_decide (pj ≠ ti))
             else Ret false);
          if mismatch : bool then
            if bool_decide (j ≠ 0) then
              j ← getitem table (j - 1);
              kmp_scan fuel' pattern text table i j
            else kmp_scan fuel' pattern text table (i + 1) j
          else kmp_scan fuel' pattern text table i j
      else Ret false
  end.

(** The [for text in file_contents] loop of [kmp_search].  Every turn of
    the inner loop either advances [i] or lowers [j], and [j] only grows
    together with [i]: [2 * len(text)] turns suffice ([kmp_scan_fuel]). *)
Fixpoint kmp_lines (pattern : str) (file_contents : list str)
  : outcome bool :=
  match file_contents with
  | [] => Ret false
  | text :: rest =>
      table ← kmp_table pattern;
      found ← kmp_scan (S (2 * length text)) pattern text table 0 0;
      if found : bool then Ret true else kmp_lines pattern rest
  end.

Definition kmp_search (file_contents : list str) (query : str)
  : outcome bool * list str :=
  let pattern := query in
  (kmp_lines pattern file_contents, file_contents).

(** *** Boyer-Moore *)

(** The local function [preprocess]: the [skip] dictionary. *)
Definition preprocess (pattern : str) : outcome (gmap char Z) :=
  for_in (λ (skip : gmap char Z) i,
            c ← getitem pattern i;
            Ret (<[c := Z.max 1 (len pattern - i - 1)]> skip))
         ∅ (range 0 (len pattern)).

(** The inner loop [while j >= 0 and text[i] == pattern[j]]; it returns the
    values of [i] and [j] when it stops. *)
Fixpoint bm_match (fuel : nat) (pattern text : str) (i j : Z)
  : outcome (Z * Z) :=
  match fuel with
  | O => Diverge
  | S fuel' =>
      continue ←
        (if 0 <=? j then
           ti ← getitem text i;
           pj ← getitem pattern j;
           Ret (bool_decide (ti = pj))
         else Ret false);
      if continue : bool then bm_match fuel' pattern text (i - 1) (j - 1)
      else Ret (i, j)
  end.

(** The loop [while i < n] on one line.  The inner loop starts at
    [j = m - 1] and lowers [j] at every turn, so it is given [m + 1] turns
    ([bm_match_fuel]); the outer loop has no such bound and takes its fuel
    from the caller. *)
Fixpoint bm_scan (fuel : nat) (pattern text : str) (skip : gmap char Z)
    (i : Z) : outcome bool :=
  match fuel with
  | O => Diverge
  | S fuel' =>
      let m := len pattern in
      let n := len text in
      if i <? n then
        '(i, j) ← bm_match (S (length pattern)) pattern text i (m - 1);
        if j <? 0 then Ret true
        else
          ti ← getitem text i;
          bm_scan fuel' pattern text skip (i + default m (skip !! ti))
      else Ret false
  end.

(** The [for text in file_contents] loop of [boyer_moore_search]. *)
Fixpoint bm_lines (fuel : nat) (pattern : str) (skip : gmap char Z)
    (file_contents : list str) : outcome bool :=
  match file_contents with
  | [] => Ret false
  | text :: rest =>
      found ← bm_scan fuel pattern text skip (len pattern - 1);
      if found : bool then Ret true else bm_lines fuel pattern skip rest
  end.

(** [fuel] bounds the turns of the [while i < n] loop on each line. *)
Definition boyer_moore_search (fuel : nat) (file_contents : list str)
    (query : str) : outcome bool * list str :=
  let pattern := query in
  (skip ← preprocess pattern; bm_lines fuel pattern skip file_contents,
   file_contents).

(** *** What the substring strategies are meant to decide *)

(** [q] occurs in [t] as a contiguous substring. *)
Definition substring (q t : str) : Prop := ∃ pre post, t = pre ++ q ++ post.

Fixpoint is_prefix (q t : str) : bool :=
  match q, t with
  | [], _ => true
  | _ :: _, [] => false
  | x :: q', y :: t' => bool_decide (x = y) && is_prefix q' t'
  end.

Fixpoint is_substring (q t : str) : bool :=
  is_prefix q t ||
  match t with
  | [] => false
  | _ :: t' => is_substring q t'
  end.

(** ** Text primitives used by the server *)

(** [bytes.decode()]: strict UTF-8.  Overlong forms, surrogates, code
    points above U+10FFFF, stray continuation bytes and truncated sequences
    raise [UnicodeDecodeError]. *)
Definition in_range (lo hi x : N) : bool := ((lo <=? x) && (x <=? hi))%N.

Definition cont (b : byte) : N := (Byte.to_N b - 128)%N.

Fixpoint decode (bs : bytes) : outcome str :=
  match bs with
  | [] => Ret []
  | b0 :: t0 =>
      let x0 := Byte.to_N b0 in
      if (x0 <? 128)%N then s ← decode t0; Ret (x0 :: s)
      else if in_range 194 223 x0 then
        match t0 with
        | b1 :: t1 =>
            if in_range 128 191 (Byte.to_N b1) then
              s ← decode t1;
              Ret (((x0 - 192) * 64 + cont b1)%N :: s)
            else Raise UnicodeDecodeError
        | _ => Raise UnicodeDecodeError
        end
      else if in_range 224 239 x0 then
        match t0 with
        | b1 :: b2 :: t2 =>
            let lo := if (x0 =? 224)%N then 160%N else 128%N in
            let hi := if (x0 =? 237)%N then 159%N else 191%N in
            if in_range lo hi (Byte.to_N b1)
               && in_range 128 191 (Byte.to_N b2) then
              s ← decode t2;
              Ret (((x0 - 224) * 4096 + cont b1 * 64 + cont b2)%N :: s)
            else Raise UnicodeDecodeError
        | _ => Raise UnicodeDecodeError
        end
      else if in_range 240 244 x0 then
        match t0 with
        | b1 :: b2 :: b3 :: t3 =>
            let lo := if (x0 =? 240)%N then 144%N else 128%N in
            let hi := if (x0 =? 244)%N then 143%N else 191%N in
            if in_range lo hi (Byte.to_N b1)
               && in_range 128 191 (Byte.to_N b2)
               && in_range 128 191 (Byte.to_N b3) then
              s ← decode t3;
              Ret (((x0 - 240) * 262144 + cont b1 * 4096
                    + cont b2 * 64 + cont b3)%N :: s)
            else Raise UnicodeDecodeError
        | _ => Raise UnicodeDecodeError
        end
      else Raise UnicodeDecodeError
  end.

(** [str.encode()]: strict UTF-8; a surrogate raises
    [UnicodeEncodeError]. *)
Definition byte_of (n : N) : byte := default x00 (Byte.of_N n).

Definition encode_char (c : char) : outcome bytes :=
  (if c <? 128 then Ret [byte_of c]
   else if c <? 2048 then
     Ret [byte_of (192 + c / 64); byte_of (128 + c mod 64)]
   else if c <? 65536 then
     if in_range 55296 57343 c then Raise UnicodeEncodeError
     else Ret [byte_of (224 + c / 4096); byte_of (128 + (c / 64) mod 64);
               byte_of (128 + c mod 64)]
   else if c <? 1114112 then
     Ret [byte_of (240 + c / 262144); byte_of (128 + (c / 4096) mod 64);
          byte_of (128 + (c / 64) mod 64); byte_of (128 + c mod 64)]
   else Raise UnicodeEncodeError)%N.

Fixpoint encode (s : str) : outcome bytes :=
  match s with
  | [] => Ret []
  | c :: s' => b ← encode_char c; bs ← encode s'; Ret (b ++ bs)
  end.

(** [str.isspace] on one character: the whitespace that [strip] removes. *)
Definition isspace (c : char) : bool :=
  in_range 9 13 c || in_range 28 32 c || bool_decide (c = 133%N)
  || bool_decide (c = 160%N) || bool_decide (c = 5760%N)
  || in_range 8192 8202 c || bool_decide (c = 8232%N)
  || bool_decide (c = 8233%N) || bool_decide (c = 8239%N)
  || bool_decide (c = 8287%N) || bool_decide (c = 12288%N).

Fixpoint lstrip (s : str) : str :=
  match s with
  | [] => []
  | c :: s' => if isspace c then lstrip s' else s
  end.

Definition rstrip (s : str) : str := reverse (lstrip (reverse s)).

(** [str.strip()] with no argument: whitespace is removed at both ends. *)
Definition strip (s : str) : str := rstrip (lstrip s).

(** The characters at which [str.splitlines] breaks a line. *)
Definition is_linebreak (c : char) : bool :=
  in_range 10 13 c || in_range 28 30 c || bool_decide (c = 133%N)
  || in_range 8232 8233 c.

(** [str.splitlines()]: the line terminators are dropped, a carriage return
    followed by a line feed counts as one terminator, and there is no final
    empty line.  [cur] holds the current line, last character first. *)
Fixpoint splitlines_from (cur : str) (s : str) : list str :=
  match s with
  | [] => match cur with [] => [] | _ => [reverse cur] end
  | c :: rest =>
      if is_linebreak c then
        reverse cur ::
        match rest with
        | c' :: rest' =>
            if bool_decide (c = 13%N) && bool_decide (c' = 10%N)
            then splitlines_from [] rest'
            else splitlines_from [] rest
        | [] => splitlines_from [] rest
        end
      else splitlines_from (c :: cur) rest
  end.

Definition splitlines (s : str) : list str := splitlines_from [] s.

(** ** Effects of the server *)

(** A peer address [(host, port)]. *)
Definition address : Type := str * Z.

(** What the server does to the outside world, in the order it does it. *)
Inductive event : Type :=
| EvRecv (bufsize : Z)
| EvReadFile (path : str)
| EvSendall (payload : bytes)
| EvLogDebug (query : str) (addr : address)
| EvLogError (addr : address) (e : exn)
| EvClose.

(** An effectful computation: the events it produced and how it ended.
    The events produced before an exception stay. *)
Definition io (A : Type) : Type := list event * outcome A.

Global Instance io_ret : MRet io := λ A a, ([], Ret a).

Global Instance io_bind : MBind io := λ A B f m,
  match m with
  | (t, Ret a) => let '(t', r) := f a in (t ++ t', r)
  | (t, Raise e) => (t, Raise e)
  | (t, Diverge) => (t, Diverge)
  end.

Definition emit (ev : event) : io unit := ([ev], Ret tt).
Definition raise {A} (e : exn) : io A := ([], Raise e).
Definition lift {A} (o : outcome A) : io A := ([], o).

(** [try: body / except Exception as e: handler e] *)
Definition try_except {A} (body : io A) (handler : exn → io A) : io A :=
  match body with
  | (t, Raise e) => let '(t', r) := handler e in (t ++ t', r)
  | _ => body
  end.

(** [try: body / finally: final]: [final] runs however [body] ended, and
    the way [body] ended is kept unless [final] itself does not return. *)
Definition try_finally {A} (body : io A) (final : io unit) : io A :=
  let '(t, r) := body in
  match final with
  | (t', Ret _) => (t ++ t', r)
  | (t', Raise e) => (t ++ t', Raise e)
  | (t', Diverge) => (t ++ t', Diverge)
  end.

(** The files of the machine.  A file holds the text that
    [open(path, "r").read()] returns, or the exception that opening or
    reading it raises; a path without a file raises [FileNotFoundError]. *)
Inductive file : Type :=
| Readable (text : str)
| Unreadable (e : exn).

Abbreviation filesystem := (gmap str file).

(** The client socket [conn], by what its two operations will do: the
    bytes [recv] returns or the exception it raises, and the exception
    [sendall] raises, if any. *)
Record connection : Type := {
  recv_result : bytes + exn;
  sendall_result : option exn;
}.

Definition conn_recv (conn : connection) (bufsize : Z) : io bytes :=
  _ ← emit (EvRecv bufsize);
  match recv_result conn with
  | inl data => mret data
  | inr e => raise e
  end.

Definition conn_sendall (conn : connection) (payload : bytes) : io unit :=
  _ ← emit (EvSendall payload);
  match sendall_result conn with
  | None => mret tt
  | Some e => raise e
  end.

Definition conn_close (conn : connection) : io unit := emit EvClose.

(** ** The server ([server.py]) *)

(** The attributes of a [Server] object that the handler reads.
    [file_contents] is [None] until a dataset is stored in it. *)
Record Server : Type := {
  ssl_enabled : Z;
  reread_on_query : Z;
  file_path : str;
  file_contents : option (list str);
}.

Definition read_file (fs : filesystem) (path : str) : io (list str) :=
  _ ← emit (EvReadFile path);
  match fs !! path with
  | Some (Readable text) => mret (splitlines text)
  | Some (Unreadable e) => raise e
  | None => raise FileNotFoundError
  end.

(** [Server.__init__], from the point where the three configuration values
    have been obtained: [ssl_enabled] and [reread] are the integers that
    [int(self.config.get(...))] produced, [path] the value of [linuxpath].
    [fs] is the file system at start-up. *)
Definition Server_init (fs : filesystem) (ssl_enabled reread : Z)
    (path : str) : io Server :=
  contents ←
    (if bool_decide (reread = 0)
     then lines ← read_file fs path; mret (Some lines)
     else mret None);
  mret {| ssl_enabled := ssl_enabled; reread_on_query := reread;
          file_path := path; file_contents := contents |}.

Definition STRING_EXISTS : str := str_of "STRING EXISTS".
Definition STRING_NOT_FOUND : str := str_of "STRING NOT FOUND".

(** [fs] is the file system at the moment of the call.  When
    [file_contents] is [None], [query in None] raises [TypeError]. *)
Definition process_query (self : Server) (fs : filesystem) (query : str)
  : io str :=
  file_contents ←
    (if bool_decide (reread_on_query self ≠ 0)
     then lines ← read_file fs (file_path self); mret (Some lines)
     else mret (file_contents self));
  match file_contents with
  | Some lines =>
      if list_contains lines query then mret STRING_EXISTS
      else mret STRING_NOT_FOUND
  | None => raise TypeError
  end.

Definition log_query (query : str) (addr : address) : io unit :=
  emit (EvLogDebug query addr).

(** The body of the [try] statement of [handle_client].  The two readings
    of the clock and the elapsed time given to [log_query] have no effect on
    the control flow and are left out. *)
Definition handle_client_body (self : Server) (fs : filesystem)
    (conn : connection) (addr : address) : io unit :=
  raw ← conn_recv conn 1024;
  text ← lift (decode raw);
  let data := strip text in
  response ← process_query self fs data;
  encoded ← lift (encode response);
  _ ← conn_sendall conn (encoded ++ [x0a]);
  log_query data addr.

Definition handle_client (self : Server) (fs : filesystem)
    (conn : connection) (addr : address) : io unit :=
  try_finally
    (try_except (handle_client_body self fs conn addr)
                (λ e, emit (EvLogError addr e)))
    (conn_close conn).

(** A connection that [server_sock.accept()] returned, and the file system
    as the handler of that connection finds it. *)
Record arrival : Type := {
  arr_conn : connection;
  arr_addr : address;
  arr_fs : filesystem;
}.

(** What one turn of the accept loop meets.  [Accepted]:
    [server_sock.accept()] returns a connection and the thread for it
    starts.  [AcceptRaises]: [accept] raises; on a TLS listener the
    handshake with the client is made inside [accept], so a client whose
    handshake fails makes [accept] raise.  [StartRaises]: [accept] returns
    a connection and [Thread(...).start()] raises, which it does with
    [RuntimeError] when no thread can be created. *)
Inductive accept_result : Type :=
| Accepted (a : arrival)
| AcceptRaises (e : exn)
| StartRaises (a : arrival) (e : exn).

(** [threading.Thread(target=..., args=...).start()].  When the thread
    starts ([failure] is [None]) the target runs on a thread of its own; an
    exception that leaves the target ends that thread and is not seen by
    the thread that called [start]; the events of the target are recorded
    at the point of the call.  When the thread cannot be started, [start]
    raises in the calling thread and the target does not run. *)
Definition thread_start (failure : option exn) (target : io unit)
  : io unit :=
  match failure with
  | None => (target.1, Ret tt)
  | Some e => raise e
  end.

(** The [while True] loop of [start_server], run on what its successive
    turns meet.  Neither the call to [accept] nor the call to [start] is
    guarded, so an exception that one of them raises leaves the loop.  When
    every connection is dispatched the loop is still running, blocked in
    [accept]. *)
Fixpoint accept_loop (self : Server) (incoming : list accept_result)
  : io unit :=
  match incoming with
  | [] => ([], Diverge)
  | AcceptRaises e :: _ => raise e
  | Accepted a :: rest =>
      _ ← thread_start None (handle_client self (arr_fs a) (arr_conn a)
                                           (arr_addr a));
      accept_loop self rest
  | StartRaises a e :: rest =>
      _ ← thread_start (Some e) (handle_client self (arr_fs a) (arr_conn a)
                                               (arr_addr a));
      accept_loop self rest
  end.

(** ** The benchmark driver ([benchmark.py]) *)

(** The strategies that [benchmark_algorithms] runs, in the order of its
    dictionary; the entries for the two others are commented out in the
    source. *)
Definition strategy : Type := list str → str → outcome bool * list str.

Definition algorithms : list (string * strategy) :=
  [("linear_search"%string, linear_search);
   ("binary_search"%string, binary_search);
   ("kmp_search"%string, kmp_search)].

(** The loop [for name, func in algorithms.items()]: every strategy is
    called on the same list object, so each one starts from the list as the
    previous one left it.  The result records, for each call, the name, the
    list the strategy received and how the call ended; an exception leaves
    the loop.  The timing of the calls is not modelled. *)
Fixpoint run_algorithms (algs : list (string * strategy))
    (file_contents : list str) (query : str)
  : list (string * list str * outcome bool) :=
  match algs with
  | [] => []
  | (name, func) :: rest =>
      let '(r, file_contents') := func file_contents query in
      (name, file_contents, r) ::
      match r with
      | Ret _ => run_algorithms rest file_contents' query
      | _ => []
      end
  end.

(** The calls that [benchmark_algorithms] makes on the lines of the file;
    no strategy is called when the file cannot be read. *)
Definition benchmark_algorithms (fs : filesystem) (path query : str)
  : list (string * list str * outcome bool) :=
  match fs !! path with
  | Some (Readable text) => run_algorithms algorithms (splitlines text) query
  | _ => []
  end.

(** ** Observations on a run *)

(** The payloads of the calls to [sendall] in a run, in order. *)
Definition sendall_calls {A} (run : io A) : list bytes :=
  omap (λ ev, match ev with EvSendall p => Some p | _ => None end) run.1.

(** How many events of a run satisfy [P]. *)
Definition count_events {A} (P : event → bool) (run : io A) : nat :=
  length (filter (λ ev, P ev = true) run.1).

Definition is_close (ev : event) : bool :=
  match ev with EvClose => true | _ => false end.

(** [D] is the dataset that a query handled by [self] consults when the
    file system is [fs]: the list stored in the object when rereading is
    off, the lines that [read_file] returns at that moment when it is on. *)
Definition consults (self : Server) (fs : filesystem) (D : list str) : Prop :=
  (reread_on_query self = 0 ∧ file_contents self = Some D) ∨
  (reread_on_query self ≠ 0 ∧ (read_file fs (file_path self)).2 = Ret D).

(** The verdict for the query [q] on the dataset [D], and the response line
    that carries it. *)
Definition verdict (D : list str) (q : str) : str :=
  if bool_decide (q ∈ D) then STRING_EXISTS else STRING_NOT_FOUND.

Definition verdict_line (D : list str) (q : str) : bytes :=
  (if bool_decide (q ∈ D) then bytes_of "STRING EXISTS"
   else bytes_of "STRING NOT FOUND") ++ [x0a].

(** The runs of the body of the handler: it stops at the first step that
    raises, and each step is taken at most once. *)
Inductive body_run (self : Server) (fs : filesystem) (conn : connection)
    (addr : address) : io unit → Prop :=
| run_recv_fails e :
    recv_result conn = inr e →
    body_run self fs conn addr ([EvRecv 1024], Raise e)
| run_decode_fails raw e :
    recv_result conn = inl raw → decode raw = Raise e →
    body_run self fs conn addr ([EvRecv 1024], Raise e)
| run_query_fails raw text e :
    recv_result conn = inl raw → decode raw = Ret text →
    (∀ D, ¬ consults self fs D) →
    body_run self fs conn addr
      ([EvRecv 1024] ++
       (if bool_decide (reread_on_query self ≠ 0)
        then [EvReadFile (file_path self)] else []), Raise e)
| run_send_fails raw text D e :
    recv_result conn = inl raw → decode raw = Ret text →
    consults self fs D → sendall_result conn = Some e →
    body_run self fs conn addr
      ([EvRecv 1024] ++
       (if bool_decide (reread_on_query self ≠ 0)
        then [EvReadFile (file_path self)] else []) ++
       [EvSendall (verdict_line D (strip text))], Raise e)
| run_completes raw text D :
    recv_result conn = inl raw → decode raw = Ret text →
    consults self fs D → sendall_result conn = None →
    body_run self fs conn addr
      ([EvRecv 1024] ++
       (if bool_decide (reread_on_query self ≠ 0)
        then [EvReadFile (file_path self)] else []) ++
       [EvSendall (verdict_line D (strip text));
        EvLogDebug (strip text) addr], Ret tt).

(** The entries of a failure table never exceed their position. *)
Definition table_bounded (table : list Z) : Prop :=
  ∀ (k : nat) (x : Z), table !! k = Some x → 0 ≤ x ≤ Z.of_nat k.

(** ** Code outside the handler: exceptions and effects *)

(** The exceptions of the code below: those of [exn], and three more. *)
Inductive exception : Type :=
| AttributeError
| ValueError
| ConfigParserError
| Std (e : exn).

(** How a computation without fuel ends, on a type [X] of exceptions. *)
Inductive ending (X A : Type) : Type :=
| Returns (a : A)
| Raises (x : X)
| Running.
Arguments Returns {X A} a.
Arguments Raises {X A} x.
Arguments Running {X A}.

(** A computation that produces events of type [Ev]. *)
Definition act (Ev X : Type) (A : Type) : Type := list Ev * ending X A.

Global Instance act_ret {Ev X} : MRet (act Ev X) := λ A a, ([], Returns a).

Global Instance act_bind {Ev X} : MBind (act Ev X) := λ A B f m,
  match m with
  | (t, Returns a) => let '(t', r) := f a in (t ++ t', r)
  | (t, Raises x) => (t, Raises x)
  | (t, Running) => (t, Running)
  end.

(** A call that produces the event [ev] and raises [failure], if any. *)
Definition call {Ev X} (ev : Ev) (failure : option X) : act Ev X unit :=
  ([ev], match failure with None => Returns tt | Some x => Raises x end).

(** [with ... as v: body]: the object is closed when the block is left,
    however it is left. *)
Definition with_closing {Ev X A} (close : Ev) (body : act Ev X A)
  : act Ev X A :=
  (body.1 ++ [close], body.2).

(** ** The listener ([Server.start_server]) *)

Definition PORT : Z := 46789.

Inductive listener_event : Type :=
| LSocket
| LBind (host : str) (port : Z)
| LListen
| LSSLContext
| LLoadCertChain (certfile keyfile : str)
| LWrapSocket
| LLogInfo (host : str) (port : Z)
| LServe (ev : event).

(** What the calls of [start_server] on the operating system do: the
    exception each start-up call raises, if any, and what the successive
    turns of the accept loop meet. *)
Record listener : Type := {
  socket_result : option exn;
  bind_result : option exn;
  listen_result : option exn;
  load_cert_chain_result : option exn;
  wrap_socket_result : option exn;
  accept_results : list accept_result;
}.

(** The accept loop, as a part of [start_server]. *)
Definition serve (loop : io unit) : act listener_event exn unit :=
  (map LServe loop.1,
   match loop.2 with
   | Ret a => Returns a
   | Raise e => Raises e
   | Diverge => Running
   end).

(** [host] is the value of [self.host], the module constant [HOST];
    [self.port] is [PORT]. *)
Definition start_server (self : Server) (host : str) (env : listener)
  : act listener_event exn unit :=
  _ ← call LSocket (socket_result env);
  _ ← call (LBind host PORT) (bind_result env);
  _ ← call LListen (listen_result env);
  _ ← (if bool_decide (ssl_enabled self ≠ 0) then
         _ ← call LSSLContext None;
         _ ← call (LLoadCertChain (str_of "ssl.pem") (str_of "private.key"))
                  (load_cert_chain_result env);
         call LWrapSocket (wrap_socket_result env)
       else mret tt);
  _ ← call (LLogInfo host PORT) None;
  serve (accept_loop self (accept_results env)).

(** ** The configuration ([Server.load_config]) *)

(** [s.split(sep, 1)] for a separator of one character: the text before
    the first [sep] and the text after it, or [s] alone. *)
Fixpoint split_at (sep : char) (s : str) : option (str * str) :=
  match s with
  | [] => None
  | c :: s' =>
      if bool_decide (c = sep) then Some ([], s')
      else match split_at sep s' with
           | Some (a, b) => Some (c :: a, b)
           | None => None
           end
  end.

Definition split_once (sep : char) (s : str) : list str :=
  match split_at sep s with
  | Some (a, b) => [a; b]
  | None => [s]
  end.

(** The body of [for line in f]: the dictionary after the line, or the
    [ValueError] of the unpacking [key, value = ...]. *)
Definition load_config_line (config : gmap str str) (line : str)
  : gmap str str + exception :=
  if bool_decide (61%N ∈ line) then
    match split_once 61%N (strip line) with
    | [key; value] => inl (<[strip key := strip value]> config)
    | _ => inr ValueError
    end
  else inl config.

(** The loop on the lines; an exception leaves it with the dictionary as
    it is at that point. *)
Fixpoint load_config_lines (config : gmap str str) (lines : list str)
  : gmap str str * option exception :=
  match lines with
  | [] => (config, None)
  | line :: rest =>
      match load_config_line config line with
      | inl config' => load_config_lines config' rest
      | inr x => (config, Some x)
      end
  end.

(** The configuration file as the loop [for line in f] finds it: the
    lines it yields, and the exception that opening or reading it raises
    after them, if any. *)
Record config_file : Type := {
  yielded : list str;
  failure : option exception;
}.

(** What [load_config] leaves: the dictionary it returns, the value it
    assigned to [self.file_path], if it did, and the exception it logged, if
    any. *)
Record loaded : Type := {
  config : gmap str str;
  assigned_file_path : option str;
  logged : option exception;
}.

(** [get_path_result] is what [get_path(conf_file)] does: the value of
    [linuxpath] that [configparser] finds, or the exception it raises. *)
Definition load_config (get_path_result : str + exception)
    (f : config_file) : loaded :=
  match get_path_result with
  | inr x => {| config := ∅; assigned_file_path := None; logged := Some x |}
  | inl path =>
      let config := <[str_of "linuxpath" := path]> ∅ in
      let '(config, raised) := load_config_lines config (yielded f) in
      {| config := config;
         assigned_file_path := Some path;
         logged := match raised with
                   | Some x => Some x
                   | None => failure f
                   end |}
  end.

(** ** The client ([client.py]) *)

Record Search : Type := {
  search_host : str;
  search_port : Z;
  search_ssl_enabled : bool;
  search_context : option unit;
}.

(** [Search.__init__].  When [ssl_enabled] holds, a context is created and
    configured, but it is bound to the local name [context]: the attribute
    [self.context] keeps the [None] it was given.  [create_context] is the
    exception that [ssl.create_default_context()] raises, if any. *)
Definition Search_init (host : str) (port : Z) (ssl_enabled : bool)
    (create_context : option exn) : Search + exn :=
  let self := {| search_host := host; search_port := port;
                 search_ssl_enabled := ssl_enabled;
                 search_context := None |} in
  if ssl_enabled then
    match create_context with
    | Some e => inr e
    | None => inl self
    end
  else inl self.

Inductive client_event : Type :=
| CConnect (host : str) (port : Z)
| CWrapSocket (server_hostname : str)
| CSendall (payload : bytes)
| CRecv (bufsize : Z)
| CCloseTLS
| CClose.

(** What the network does for one call of [send_query]. *)
Record client_network : Type := {
  connect_result : option exn;
  handshake_result : option exn;
  client_sendall_result : option exn;
  client_recv_result : bytes + exn;
}.

Definition std {A} (o : outcome A) : act client_event exception A :=
  ([], match o with
       | Ret a => Returns a
       | Raise e => Raises (Std e)
       | Diverge => Running
       end).

(** The exchange on a connected socket: send the encoded query, read one
    buffer, decode it and strip it. *)
Definition exchange (net : client_network) (query : str)
  : act client_event exception str :=
  payload ← std (encode query);
  _ ← call (CSendall payload) (Std <$> client_sendall_result net);
  _ ← call (CRecv 1024) None;
  raw ← ([], match client_recv_result net with
             | inl raw => Returns raw
             | inr e => Raises (Std e)
             end);
  text ← std (decode raw);
  mret (strip text).

(** [Search.send_query]; the elapsed time it returns next to the response
    is left out. *)
Definition send_query (self : Search) (net : client_network) (query : str)
  : act client_event exception str :=
  _ ← call (CConnect (search_host self) (search_port self))
           (Std <$> connect_result net);
  with_closing CClose
    (if search_ssl_enabled self then
       match search_context self with
       | None => ([], Raises AttributeError)
       | Some _ =>
           _ ← call (CWrapSocket (search_host self))
                    (Std <$> handshake_result net);
           with_closing CCloseTLS (exchange net query)
       end
     else exchange net query).

(** The skip dictionary after the first [k] characters of the pattern: a
    character is a key exactly when it occurs among them, and its value is
    computed from its last position among them. *)
Definition skip_upto (pattern : str) (k : nat) (skip : gmap char Z) : Prop :=
  ∀ (c : char) (v : Z),
    skip !! c = Some v ↔
    ∃ idx : nat,
      (idx < k)%nat ∧ pattern !! idx = Some c ∧
      (∀ idx' : nat, (idx < idx' < k)%nat → pattern !! idx' ≠ Some c) ∧
      v = Z.max 1 (len pattern - Z.of_nat idx - 1).

(** ** The call of the benchmark driver ([benchmark_algorithms]) *)

(** How the loop [for name, func in algorithms.items()] ends, read off the
    log of its calls: when every call returned, the keys of [results] in
    the order of their insertion (the times stored under them are not
    modelled); otherwise what the call that did not return did. *)
Fixpoint results_of (log : list (string * list str * outcome bool))
  : outcome (list string) :=
  match log with
  | [] => Ret []
  | (name, _, Ret _) :: rest =>
      names ← results_of rest; Ret (name :: names)
  | (_, _, Raise e) :: _ => Raise e
  | (_, _, Diverge) :: _ => Diverge
  end.

(** Writing [benchmark_results.csv]; [failure] is the exception that
    opening or writing the file raises, if any. *)
Definition write_csv (failure : option exn) : outcome unit :=
  match failure with
  | None => Ret tt
  | Some e => Raise e
  end.

(** [try: ... except FileNotFoundError: print(...)]: the handler returns
    nothing, so that the function returns [None]; every other exception
    propagates. *)
Definition except_file_not_found {A} (block : outcome A)
  : outcome (option A) :=
  match block with
  | Ret a => Ret (Some a)
  | Raise FileNotFoundError => Ret None
  | Raise e => Raise e
  | Diverge => Diverge
  end.

(** How the call [benchmark_algorithms(path, query)] ends: the file is
    opened and its lines are read as in [read_file], the strategies are
    run, the results are written, and the dictionary is returned. *)
Definition benchmark_algorithms_call (fs : filesystem) (path query : str)
    (csv_failure : option exn) : outcome (option (list string)) :=
  except_file_not_found
    (file_contents ← (read_file fs path).2;
     names ← results_of (run_algorithms algorithms file_contents query);
     _ ← write_csv csv_failure;
     Ret names).

(** * Properties *)

(** ** The embedding on the cases of [server_test.py] and of the
    specification *)

(** [test_read_file]: three lines, the last one without terminator. *)
Example test_read_file :
  let text := str_of "line1" ++ [10%N] ++ str_of "line2" ++ [10%N]
              ++ str_of "line3" in
  read_file {[ str_of "/200k.txt" := Readable text ]} (str_of "/200k.txt")
  = ([EvReadFile (str_of "/200k.txt")],
     Ret [str_of "line1"; str_of "line2"; str_of "line3"]).
Proof. reflexivity. Qed.

(** [test_process_query], with rereading off. *)
Example test_process_query :
  let self := {| ssl_enabled := 0; reread_on_query := 0;
                 file_path := str_of "./200k.txt";
                 file_contents := Some [str_of "test_query"] |} in
  process_query self ∅ (str_of "test_query") = ([], Ret STRING_EXISTS) ∧
  process_query self ∅ (str_of "other_query") = ([], Ret STRING_NOT_FOUND).
Proof. split; reflexivity. Qed.

(** [test_handle_client]: the payload is the query and a newline; the
    verdict line is sent once and the connection is closed once. *)
Example test_handle_client :
  let self := {| ssl_enabled := 0; reread_on_query := 0;
                 file_path := str_of "./200k.txt";
                 file_contents := Some [str_of "test_query"] |} in
  let conn := {| recv_result := inl (bytes_of "test_query" ++ [x0a]);
                 sendall_result := None |} in
  let addr : address := (str_of "127.0.0.1", 12345) in
  handle_client self ∅ conn addr =
  ([EvRecv 1024;
    EvSendall (bytes_of "STRING EXISTS" ++ [x0a]);
    EvLogDebug (str_of "test_query") addr;
    EvClose], Ret tt).
Proof. reflexivity. Qed.

(** A query that is a strict substring of a line: the equality strategies
    do not find it, the substring strategies do. *)
Example strict_substring_query :
  let D := [str_of "abcdef"] in
  let q := str_of "cde" in
  (linear_search D q).1 = Ret false ∧
  (binary_search D q).1 = Ret false ∧
  (hash_table_search D q).1 = Ret false ∧
  (kmp_search D q).1 = Ret true ∧
  (boyer_moore_search 2 D q).1 = Ret true.
Proof. repeat split; reflexivity. Qed.

(** Decoding, stripping and splitting on small inputs. *)
Example decode_two_byte_character :
  decode [xc3; xa9; x0a] = Ret [233%N; 10%N] ∧
  decode [xc3] = Raise UnicodeDecodeError ∧
  decode [xc0; x80] = Raise UnicodeDecodeError.
Proof. repeat split; reflexivity. Qed.

Example strip_both_ends :
  strip (str_of "  a b " ++ [13%N; 10%N]) = str_of "a b".
Proof. reflexivity. Qed.

Example splitlines_terminators :
  splitlines (str_of "a" ++ [13%N; 10%N; 10%N] ++ str_of "b" ++ [10%N])
  = [str_of "a"; []; str_of "b"] ∧
  splitlines [] = [].
Proof. split; reflexivity. Qed.

(** ** Indexing *)

Lemma getitem_inside {A} (l : list A) (i : Z) :
  0 ≤ i < len l → ∃ x, l !! Z.to_nat i = Some x ∧ getitem l i = Ret x.
Proof.
  intros Hi. unfold getitem, len in *.
  destruct (l !! Z.to_nat i) as [x|] eqn:E.
  - exists x. split; [done|].
    rewrite (proj2 (Z.ltb_ge i 0)) by lia.
    rewrite (proj2 (Z.leb_le 0 i)) by lia.
    rewrite (proj2 (Z.ltb_lt i _)) by lia. simpl. by rewrite E.
  - apply lookup_ge_None in E. lia.
Qed.

(** ** The order on strings *)

Lemma str_ltb_irrefl a : str_ltb a a = false.
Proof.
  induction a as [|x a IH]; simpl; [done|].
  rewrite N.ltb_irrefl, N.eqb_refl. exact IH.
Qed.

Lemma str_ltb_asym a b : str_ltb a b = true → str_ltb b a = false.
Proof.
  revert b. induction a as [|x a IH]; intros [|y b]; simpl; try done.
  destruct (N.ltb_spec x y), (N.ltb_spec y x), (N.eqb_spec x y),
    (N.eqb_spec y x); try done; try lia.
  apply IH.
Qed.

Lemma str_ltb_total a b : a ≠ b → str_ltb a b = true ∨ str_ltb b a = true.
Proof.
  revert b. induction a as [|x a IH]; intros [|y b] Hne; simpl; auto.
  destruct (N.ltb_spec x y), (N.ltb_spec y x), (N.eqb_spec x y),
    (N.eqb_spec y x); auto; try lia.
  apply IH. congruence.
Qed.

Lemma str_ltb_trans a b c :
  str_ltb a b = true → str_ltb b c = true → str_ltb a c = true.
Proof.
  revert b c. induction a as [|x a IH]; intros [|y b] [|z c]; simpl;
    try done.
  destruct (N.ltb_spec x y), (N.ltb_spec y z), (N.ltb_spec x z),
    (N.eqb_spec x y), (N.eqb_spec y z), (N.eqb_spec x z);
    try done; try lia.
  apply IH.
Qed.

Global Instance str_le_total : Total str_le.
Proof.
  intros a b. unfold str_le.
  destruct (str_ltb b a) eqn:E; [right|left]; [|done].
  by apply str_ltb_asym.
Qed.

Global Instance str_le_trans : Transitive str_le.
Proof.
  intros a b c Hab Hbc. unfold str_le in *.
  destruct (str_ltb c a) eqn:E; [|done].
  destruct (decide (b = c)) as [->|Hne]; [congruence|].
  destruct (str_ltb_total b c Hne) as [H|H]; [|congruence].
  pose proof (str_ltb_trans _ _ _ H E). congruence.
Qed.

Global Instance str_le_antisym : AntiSymm (=) str_le.
Proof.
  intros a b Hab Hba. unfold str_le in *.
  destruct (decide (a = b)) as [|Hne]; [done|].
  destruct (str_ltb_total a b Hne); congruence.
Qed.

(** ** The equality strategies *)

Lemma list_contains_spec (D : list str) (q : str) :
  list_contains D q = bool_decide (q ∈ D).
Proof.
  induction D as [|x D IH]; cbn [list_contains].
  - symmetry. apply bool_decide_eq_false. by intros ?%elem_of_nil.
  - rewrite IH. unfold str_eqb.
    destruct (decide (x = q)) as [->|Hne].
    + rewrite bool_decide_eq_true_2 by done. simpl.
      symmetry. apply bool_decide_eq_true. left.
    + rewrite (bool_decide_eq_false_2 (x = q)) by done. simpl.
      apply bool_decide_ext. rewrite elem_of_cons.
      split; [by right|]. intros [Heq|Hin]; [congruence|done].
Qed.

Lemma StronglySorted_lookup_le (l : list str) (i j : nat) (x y : str) :
  StronglySorted str_le l → (i ≤ j)%nat →
  l !! i = Some x → l !! j = Some y → str_le x y.
Proof.
  revert i j. induction l as [|a l IH]; intros i j Hs Hij Hi Hj; [done|].
  apply StronglySorted_inv in Hs as [Hs Hall].
  destruct i as [|i], j as [|j]; simpl in *; simplify_eq.
  - unfold str_le. apply str_ltb_irrefl.
  - rewrite Forall_forall in Hall. apply Hall.
    eapply list_elem_of_lookup_2. done.
  - lia.
  - eapply (IH i j); [done|lia|done..].
Qed.

(** The bisection loop on a sorted list: as long as every position of
    [q] lies in [low..high], the loop answers whether [q] is in the list,
    and the fuel it needs is the width of the interval plus one. *)
Lemma bisect_spec (l : list str) (q : str) :
  StronglySorted str_le l →
  ∀ (fuel : nat) (low high : Z),
    0 ≤ low → high < len l →
    (∀ k : nat, l !! k = Some q → low ≤ Z.of_nat k ≤ high) →
    (Z.to_nat (high - low + 1) < fuel)%nat →
    bisect fuel l q low high = Ret (bool_decide (q ∈ l)).
Proof.
  intros Hs fuel. induction fuel as [|fuel IH];
    intros low high Hlow Hhigh Hpos Hfuel; [lia|].
  simpl. destruct (Z.leb_spec low high) as [Hle|Hgt].
  - set (mid := (low + high) `div` 2).
    assert (low ≤ mid ≤ high) as Hmid.
    { unfold mid. split.
      - apply Z.div_le_lower_bound; lia.
      - apply Z.div_le_upper_bound; lia. }
    destruct (getitem_inside l mid) as (x & Hx & ->); [lia|].
    simpl. unfold str_eqb. destruct (decide (x = q)) as [->|Hne].
    + rewrite bool_decide_eq_true_2 by done.
      f_equal. symmetry. apply bool_decide_eq_true.
      eapply list_elem_of_lookup_2. done.
    + rewrite (bool_decide_eq_false_2 (x = q)) by done.
      destruct (str_ltb x q) eqn:Hlt.
      * apply IH; try lia.
        intros k Hk. specialize (Hpos k Hk).
        destruct (decide (Z.of_nat k ≤ mid)) as [Hkm|]; [|lia].
        assert (str_le q x) as Hqx.
        { eapply (StronglySorted_lookup_le l k (Z.to_nat mid)); eauto. lia. }
        unfold str_le in Hqx. congruence.
      * apply IH; try lia.
        intros k Hk. specialize (Hpos k Hk).
        destruct (decide (mid ≤ Z.of_nat k)) as [Hkm|]; [|lia].
        assert (str_le x q) as Hxq.
        { eapply (StronglySorted_lookup_le l (Z.to_nat mid) k); eauto. lia. }
        unfold str_le in Hxq.
        destruct (str_ltb_total x q Hne); congruence.
  - f_equal. symmetry. apply bool_decide_eq_false.
    intros (k & Hk)%list_elem_of_lookup_1. specialize (Hpos k Hk). lia.
Qed.

(** [len + 1] turns are enough for the loop of [binary_search], which
    therefore always returns: the call is total. *)
Lemma bisect_fuel (D : list str) (q : str) :
  let l := merge_sort str_le D in
  bisect (S (length l)) l q 0 (len l - 1) = Ret (bool_decide (q ∈ D)).
Proof.
  intros l.
  rewrite (bisect_spec l q).
  - f_equal. apply bool_decide_ext. subst l.
    by rewrite merge_sort_Permutation.
  - apply StronglySorted_merge_sort; apply _.
  - lia.
  - lia.
  - intros k Hk. apply lookup_lt_Some in Hk. unfold len. lia.
  - unfold len. lia.
Qed.

Lemma equality_strategies_spec (D : list str) (q : str) :
  (linear_search D q).1 = Ret (bool_decide (q ∈ D)) ∧
  (hash_table_search D q).1 = Ret (bool_decide (q ∈ D)) ∧
  (binary_search D q).1 = Ret (bool_decide (q ∈ D)).
Proof.
  split; [|split].
  - unfold linear_search. simpl. by rewrite list_contains_spec.
  - unfold hash_table_search. simpl. f_equal.
    apply bool_decide_ext. by rewrite elem_of_list_to_set.
  - unfold binary_search. simpl. apply bisect_fuel.
Qed.

(** C2.  On every dataset [D] (in particular on every non-empty one) and
    every query [q], [linear_search], [hash_table_search] and
    [binary_search] return the same value, and each of them returns [True]
    exactly when [q] is an element of [D]. *)
Theorem equality_strategies_agree (D : list str) (q : str) :
  (linear_search D q).1 = (hash_table_search D q).1 ∧
  (hash_table_search D q).1 = (binary_search D q).1 ∧
  (linear_search D q).1 = Ret (bool_decide (q ∈ D)) ∧
  (hash_table_search D q).1 = Ret (bool_decide (q ∈ D)) ∧
  (binary_search D q).1 = Ret (bool_decide (q ∈ D)).
Proof.
  destruct (equality_strategies_spec D q) as (Hl & Hh & Hb).
  rewrite Hl, Hh, Hb. done.
Qed.

(** [list.sort()] is modelled by a merge sort.  The choice of the
    algorithm is immaterial: the order on strings is total and
    antisymmetric, so a list has one sorted rearrangement only. *)
Lemma sort_unique (D l : list str) :
  StronglySorted str_le l → l ≡ₚ D → l = merge_sort str_le D.
Proof.
  intros Hs Hp. apply (StronglySorted_unique str_le); [done| |].
  - apply StronglySorted_merge_sort; apply _.
  - by rewrite merge_sort_Permutation.
Qed.

(** ** The in-place sort of [binary_search] *)

Lemma binary_search_sorts (D : list str) (q : str) :
  (binary_search D q).2 = merge_sort str_le D ∧
  StronglySorted str_le (binary_search D q).2 ∧
  (binary_search D q).2 ≡ₚ D.
Proof.
  unfold binary_search. simpl. split; [done|]. split.
  - apply StronglySorted_merge_sort; apply _.
  - apply merge_sort_Permutation.
Qed.

(** The list object is shared by the strategies that the driver runs: the
    call log of the driver on the lines [D]. *)
Lemma run_algorithms_log (D : list str) (q : str) :
  run_algorithms algorithms D q =
  [("linear_search"%string, D, Ret (bool_decide (q ∈ D)));
   ("binary_search"%string, D, Ret (bool_decide (q ∈ D)));
   ("kmp_search"%string, merge_sort str_le D,
     (kmp_search (merge_sort str_le D) q).1)].
Proof.
  unfold algorithms. cbn [run_algorithms].
  destruct (equality_strategies_spec D q) as (Hl & _ & Hb).
  destruct (linear_search D q) as [r1 l1] eqn:E1.
  destruct (binary_search l1 q) as [r2 l2] eqn:E2.
  unfold linear_search in E1. injection E1 as <- <-.
  pose proof (binary_search_sorts D q) as (Hs & _).
  rewrite E2 in Hb, Hs. simpl in Hb, Hs. subst r2 l2.
  rewrite list_contains_spec.
  destruct (kmp_search (merge_sort str_le D) q) as [r3 l3] eqn:E3.
  simpl. by destruct r3.
Qed.

(** C10.  For every list [D], [binary_search] leaves the caller's list
    sorted in ascending order (the sorted rearrangement of its lines), so
    a list that was not sorted does not keep its order, while the four
    other strategies leave every list as it was.  In the loop of
    [benchmark_algorithms], run on any list, the strategy that runs after
    [binary_search], namely [kmp_search], therefore receives the sorted
    list; on a readable file the list is that of the lines of the file, and
    [kmp_search] does not see them in the order of the file. *)
Theorem binary_search_mutates_dataset (D : list str) (q : str) :
  let sorted := (binary_search D q).2 in
  StronglySorted str_le sorted ∧ sorted ≡ₚ D ∧
  (¬ StronglySorted str_le D → sorted ≠ D) ∧
  (linear_search D q).2 = D ∧
  (hash_table_search D q).2 = D ∧
  (kmp_search D q).2 = D ∧
  (∀ fuel : nat, (boyer_moore_search fuel D q).2 = D) ∧
  run_algorithms algorithms D q =
    [("linear_search"%string, D, (linear_search D q).1);
     ("binary_search"%string, D, (binary_search D q).1);
     ("kmp_search"%string, sorted, (kmp_search sorted q).1)] ∧
  (∀ (fs : filesystem) (path text : str),
     fs !! path = Some (Readable text) → splitlines text = D →
     benchmark_algorithms fs path q =
       [("linear_search"%string, D, (linear_search D q).1);
        ("binary_search"%string, D, (binary_search D q).1);
        ("kmp_search"%string, sorted, (kmp_search sorted q).1)]).
Proof.
  intros sorted.
  destruct (binary_search_sorts D q) as (Heq & Hs & Hp).
  assert (run_algorithms algorithms D q =
    [("linear_search"%string, D, (linear_search D q).1);
     ("binary_search"%string, D, (binary_search D q).1);
     ("kmp_search"%string, sorted, (kmp_search sorted q).1)]) as Hlog.
  { rewrite run_algorithms_log.
    destruct (equality_strategies_spec D q) as (-> & _ & ->).
    subst sorted. by rewrite Heq. }
  split; [done|]. split; [done|].
  split; [intros Hunsorted Hsame; apply Hunsorted; by rewrite <- Hsame|].
  split; [done|]. split; [done|]. split; [done|]. split; [done|].
  split; [done|].
  intros fs path text Hfile Hlines.
  unfold benchmark_algorithms. by rewrite Hfile, Hlines.
Qed.

(** An unsorted file: the third strategy sees the lines in another order
    than the file has them. *)
Lemma binary_search_mutates_dataset_witness :
  let fs : filesystem :=
    {[ str_of "200k.txt" := Readable (str_of "b" ++ [10%N] ++ str_of "a") ]} in
  let D := [str_of "b"; str_of "a"] in
  let sorted := [str_of "a"; str_of "b"] in
  (binary_search D (str_of "a")).2 = sorted ∧
  StronglySorted str_le sorted ∧ sorted ≡ₚ D ∧
  ¬ StronglySorted str_le D ∧ sorted ≠ D ∧
  (linear_search D (str_of "a")).2 = D ∧
  (hash_table_search D (str_of "a")).2 = D ∧
  (kmp_search D (str_of "a")).2 = D ∧
  (boyer_moore_search 9 D (str_of "a")).2 = D ∧
  benchmark_algorithms fs (str_of "200k.txt") (str_of "a") =
    [("linear_search"%string, D, Ret true);
     ("binary_search"%string, D, Ret true);
     ("kmp_search"%string, sorted, Ret true)].
Proof.
  intros fs D sorted.
  assert (¬ StronglySorted str_le D) as Hunsorted.
  { intros Hs. apply StronglySorted_inv in Hs as [_ Hle].
    apply Forall_cons in Hle as [Hle _]. discriminate Hle. }
  destruct (binary_search_mutates_dataset D (str_of "a"))
    as (Hs & Hp & Hd & Hl & Hh & Hk & Hb & _ & Hfile).
  split; [reflexivity|]. split; [exact Hs|]. split; [exact Hp|].
  split; [exact Hunsorted|]. split; [exact (Hd Hunsorted)|].
  split; [exact Hl|]. split; [exact Hh|]. split; [exact Hk|].
  split; [exact (Hb 9%nat)|].
  exact (Hfile fs (str_of "200k.txt") (str_of "b" ++ [10%N] ++ str_of "a")
           eq_refl eq_refl).
Defined.

(** ** The fuel given to the inner loops is enough *)

Lemma getitem_cases {A} (l : list A) (i : Z) :
  (∃ x, getitem l i = Ret x ∧
        l !! Z.to_nat (if i <? 0 then i + len l else i) = Some x) ∨
  getitem l i = Raise IndexError.
Proof.
  unfold getitem. destruct (_ && _); [|by right].
  destruct (l !! _) as [x|]; [left; by exists x|by right].
Qed.

Lemma setitem_cases {A} (l : list A) (i : Z) (x : A) :
  (∃ k, (if i <? 0 then i + len l else i) = Z.of_nat k ∧
        setitem l i x = Ret (<[k := x]> l)) ∨
  setitem l i x = Raise IndexError.
Proof.
  unfold setitem. destruct (_ && _) eqn:E; [|by right].
  left. exists (Z.to_nat (if i <? 0 then i + len l else i)).
  split; [|done]. apply andb_true_iff in E as [E _]. lia.
Qed.

Lemma bm_match_fuel (pattern text : str) (fuel : nat) (i j : Z) :
  -1 ≤ j → (Z.to_nat (j + 1) < fuel)%nat →
  bm_match fuel pattern text i j ≠ Diverge.
Proof.
  revert i j. induction fuel as [|fuel IH]; intros i j Hj Hfuel; [lia|].
  cbn [bm_match]. destruct (Z.leb_spec 0 j) as [Hpos|Hneg]; [|done].
  destruct (getitem_cases text i) as [(ti & -> & _)| ->]; [|done].
  destruct (getitem_cases pattern j) as [(pj & -> & _)| ->]; [|done].
  cbn. destruct (bool_decide (ti = pj)); [|done].
  apply IH; lia.
Qed.

Lemma for_in_invariant {S A} (body : S → A → outcome S)
    (I : nat → S → Prop) (xs : list A) (st st' : S) :
  (∀ k st x st', xs !! k = Some x → I k st → body st x = Ret st' →
                 I (Datatypes.S k) st') →
  I O st → for_in body st xs = Ret st' → I (length xs) st'.
Proof.
  revert I st. induction xs as [|x xs IH]; intros I st Hstep H0 Hrun.
  - simpl in Hrun. by injection Hrun as <-.
  - simpl in Hrun. destruct (body st x) as [st1| |] eqn:E; try done.
    simpl in Hrun.
    apply (IH (λ k, I (Datatypes.S k)) st1); [|by eapply (Hstep O)|done].
    intros k s y s' Hy. by apply (Hstep (Datatypes.S k)).
Qed.

Lemma for_in_returns_or_raises {S A} (body : S → A → outcome S)
    (xs : list A) (st : S) :
  (∀ st x, body st x ≠ Diverge) → for_in body st xs ≠ Diverge.
Proof.
  intros Hbody. revert st. induction xs as [|x xs IH]; intros st; [done|].
  simpl. specialize (Hbody st x).
  destruct (body st x) as [st1| |]; try done. apply IH.
Qed.

Lemma kmp_table_step_bounded (pattern : str) (table table' : list Z)
    (i j j' : Z) :
  table_bounded table → 0 ≤ j < i →
  kmp_table_step pattern (table, j) i = Ret (table', j') →
  table_bounded table' ∧ 0 ≤ j' < i + 1.
Proof.
  intros Htab Hj. unfold kmp_table_step.
  destruct (getitem_cases pattern i) as [(pi & -> & _)| ->]; [|done].
  destruct (getitem_cases pattern j) as [(pj & -> & _)| ->]; [|done].
  cbn. destruct (bool_decide (pi = pj)).
  - destruct (setitem_cases table i (j + 1)) as [(k & Hk & ->)| ->]; [|done].
    cbn. intros [= <- <-]. split; [|lia].
    rewrite (proj2 (Z.ltb_ge i 0)) in Hk by lia.
    intros n x Hn. destruct (decide (n = k)) as [->|Hne].
    + destruct (decide (k < length table)%nat).
      * rewrite list_lookup_insert_eq in Hn by done. simplify_eq. lia.
      * rewrite list_insert_ge in Hn by lia. apply lookup_lt_Some in Hn. lia.
    + rewrite list_lookup_insert_ne in Hn by done. by apply Htab.
  - destruct (decide (j = 0)) as [->|Hnz].
    + rewrite bool_decide_eq_false_2 by (intros ?; done).
      destruct (setitem_cases table i 0) as [(k & Hk & ->)| ->]; [|done].
      cbn. intros [= <- <-]. split; [|lia].
      intros n x Hn. destruct (decide (n = k)) as [->|Hne].
      * destruct (decide (k < length table)%nat).
        -- rewrite list_lookup_insert_eq in Hn by done. simplify_eq. lia.
        -- rewrite list_insert_ge in Hn by lia. by apply Htab.
      * rewrite list_lookup_insert_ne in Hn by done. by apply Htab.
    + rewrite bool_decide_eq_true_2 by done.
      destruct (getitem_cases table (j - 1)) as [(x & -> & Hx)| ->]; [|done].
      cbn. intros [= <- <-]. split; [done|].
      rewrite (proj2 (Z.ltb_ge (j - 1) 0)) in Hx by lia.
      apply Htab in Hx. lia.
Qed.

Lemma kmp_table_bounded (pattern : str) (table : list Z) :
  kmp_table pattern = Ret table → table_bounded table.
Proof.
  unfold kmp_table.
  destruct (for_in _ _ _) as [[table' j]| |] eqn:Hrun; try done.
  cbn. intros [= <-].
  apply (for_in_invariant (kmp_table_step pattern)
    (λ k st, table_bounded st.1 ∧ 0 ≤ st.2 < 1 + Z.of_nat k))
    in Hrun as [Htab _]; [done| |].
  - intros k [t1 j1] i [t2 j2] Hi [Ht1 Hj1] Hstep. cbn [fst snd] in *.
    unfold range in Hi. apply lookup_seqZ in Hi as [-> _].
    destruct (kmp_table_step_bounded pattern t1 t2 (1 + Z.of_nat k) j1 j2)
      as [? ?]; [done|lia|done|]. split; [done|lia].
  - cbn. split; [|lia]. intros k x Hx.
    apply lookup_replicate in Hx as [-> _]. lia.
Qed.

Lemma kmp_table_returns_or_raises (pattern : str) :
  kmp_table pattern ≠ Diverge.
Proof.
  unfold kmp_table.
  pose proof (for_in_returns_or_raises (kmp_table_step pattern)
                (range 1 (len pattern))
                (replicate (length pattern) 0, 0)) as Hfor.
  destruct (for_in _ _ _) as [st| |]; try done.
  intros _. apply Hfor; [|done]. intros [table j] i. unfold kmp_table_step.
  destruct (getitem_cases pattern i) as [(pi & -> & _)| ->]; [|done].
  destruct (getitem_cases pattern j) as [(pj & -> & _)| ->]; [|done].
  cbn. destruct (bool_decide (pi = pj)).
  - by destruct (setitem_cases table i (j + 1)) as [(k & _ & ->)| ->].
  - destruct (bool_decide (j ≠ 0)).
    + by destruct (getitem_cases table (j - 1)) as [(x & -> & _)| ->].
    + by destruct (setitem_cases table i 0) as [(k & _ & ->)| ->].
Qed.

(** Every turn of the loop of [kmp_search] lowers [2 * (n - i) + j]. *)
Lemma kmp_scan_fuel (pattern text : str) (table : list Z) :
  table_bounded table →
  ∀ (fuel : nat) (i j : Z),
    0 ≤ j →
    (Z.to_nat (2 * (len text - i) + j) < fuel)%nat →
    kmp_scan fuel pattern text table i j ≠ Diverge.
Proof.
  intros Htab fuel. induction fuel as [|fuel IH]; intros i j Hj Hfuel; [lia|].
  cbn [kmp_scan]. destruct (Z.ltb_spec i (len text)) as [Hi|Hi]; [|done].
  destruct (getitem_cases pattern j) as [(pj & Hpj & _)|Hpj];
    rewrite Hpj; [|done].
  destruct (getitem_cases text i) as [(ti & Hti & _)|Hti];
    rewrite Hti; [|done].
  cbn. destruct (decide (pj = ti)) as [->|Hne].
  - rewrite bool_decide_eq_true_2 by done.
    destruct (j + 1 =? len pattern); [done|].
    assert (∀ j', 0 ≤ j' ≤ j + 1 →
              kmp_scan fuel pattern text table (i + 1) j' ≠ Diverge) as Hnext.
    { intros j' Hj'. apply IH; lia. }
    destruct (Z.ltb_spec (i + 1) (len text)).
    + destruct (getitem_cases pattern (j + 1)) as [(pj' & -> & _)| ->];
        [|done].
      destruct (getitem_cases text (i + 1)) as [(ti' & -> & _)| ->]; [|done].
      cbn. destruct (bool_decide (pj' ≠ ti')); [|apply Hnext; lia].
      rewrite bool_decide_eq_true_2 by lia.
      destruct (getitem_cases table (j + 1 - 1)) as [(x & -> & Hx)| ->];
        [|done].
      cbn. rewrite (proj2 (Z.ltb_ge (j + 1 - 1) 0)) in Hx by lia.
      apply Htab in Hx. apply Hnext. lia.
    + cbn. apply Hnext. lia.
  - rewrite bool_decide_eq_false_2 by done.
    destruct (j =? len pattern); [done|].
    rewrite (proj2 (Z.ltb_lt i (len text))) by done.
    rewrite Hpj, Hti. cbn. rewrite bool_decide_eq_true_2 by done.
    destruct (decide (j = 0)) as [->|Hnz].
    + rewrite bool_decide_eq_false_2 by (intros ?; done).
      apply IH; lia.
    + rewrite bool_decide_eq_true_2 by done.
      destruct (getitem_cases table (j - 1)) as [(x & -> & Hx)| ->]; [|done].
      cbn. rewrite (proj2 (Z.ltb_ge (j - 1) 0)) in Hx by lia.
      apply Htab in Hx. apply IH; lia.
Qed.

(** [kmp_search] always ends: it returns a boolean or raises. *)
Lemma kmp_search_returns_or_raises (D : list str) (q : str) :
  (kmp_search D q).1 ≠ Diverge.
Proof.
  unfold kmp_search. cbn [fst].
  induction D as [|text D IH]; [done|].
  cbn [kmp_lines].
  pose proof (kmp_table_returns_or_raises q) as Htot.
  destruct (kmp_table q) as [table| |] eqn:Htable; try done.
  cbn -[kmp_scan Nat.mul].
  pose proof (kmp_scan_fuel q text table (kmp_table_bounded _ _ Htable)
                (S (2 * length text)) 0 0) as Hscan.
  destruct (kmp_scan _ _ _ _ _ _) as [[|]| |]; try done.
  apply Hscan; unfold len; lia.
Qed.

(** ** The substring strategies *)

Lemma is_prefix_spec (q t : str) :
  is_prefix q t = true ↔ ∃ post, t = q ++ post.
Proof.
  revert t. induction q as [|x q IH]; intros t; simpl.
  - split; [intros _; by exists t|done].
  - destruct t as [|y t].
    + split; [done|]. by intros [post ?].
    + rewrite andb_true_iff, bool_decide_eq_true, IH. split.
      * intros [-> [post ->]]. by exists post.
      * intros [post Heq]. injection Heq as -> ->. split; [done|by exists post].
Qed.

Lemma is_substring_spec (q t : str) :
  is_substring q t = true ↔ substring q t.
Proof.
  induction t as [|c t IH]; simpl; rewrite orb_true_iff, is_prefix_spec.
  - split.
    + intros [[post ->]|?]; [|done]. by exists [], post.
    + intros (pre & post & Heq). left.
      destruct pre; [by exists post|done].
  - rewrite IH. split.
    + intros [[post ->]|(pre & post & ->)].
      * by exists [], post.
      * by exists (c :: pre), post.
    + intros (pre & post & Heq). destruct pre as [|c' pre].
      * left. by exists post.
      * right. injection Heq as -> ->. by exists pre, post.
Qed.

(** The outer loop of [boyer_moore_search] for the pattern [ab] on the line
    [bb]: a turn that starts at [i = 1] matches the final [b], fails on the
    character before it, and adds the skip of [b], which is [1], to the
    position of the failure, [0]; the next turn starts at [i = 1] again. *)
Lemma bm_scan_ab_bb (fuel : nat) (skip : gmap char Z) :
  skip !! 98%N = Some 1 →
  bm_scan fuel (str_of "ab") (str_of "bb") skip 1 = Diverge.
Proof.
  intros Hskip. induction fuel as [|fuel IH]; [done|].
  transitivity (bm_scan fuel (str_of "ab") (str_of "bb") skip
                        (0 + default 2 (skip !! 98%N))); [reflexivity|].
  rewrite Hskip. exact IH.
Qed.

(** C3.  The two strategies do not decide substring containment.
    [kmp_search] misses the occurrence of [abaaa] at offset 3 of the line
    [abaabaaa], and reports [aaabac] in the line [aaabaabac], which does not
    contain it: its failure table is wrong, because the [i -= 1] meant to
    repeat a turn of the [for] loop has no effect.  [boyer_moore_search]
    reports [abb] in the line [bbba], which does not contain it: after a
    partial match it shifts from the position of the mismatch, moves
    backwards, and reads the line at a negative index. *)
Theorem substring_strategies_wrong :
  ((kmp_search [str_of "abaabaaa"] (str_of "abaaa")).1 = Ret false ∧
   substring (str_of "abaaa") (str_of "abaabaaa")) ∧
  ((kmp_search [str_of "aaabaabac"] (str_of "aaabac")).1 = Ret true ∧
   ¬ substring (str_of "aaabac") (str_of "aaabaabac")) ∧
  (∀ fuel,
     (boyer_moore_search (S (S fuel)) [str_of "bbba"] (str_of "abb")).1
     = Ret true) ∧
  ¬ substring (str_of "abb") (str_of "bbba").
Proof.
  split; [|split; [|split]].
  - split; [reflexivity|]. by apply is_substring_spec.
  - split; [reflexivity|]. by rewrite <- is_substring_spec.
  - intros fuel. reflexivity.
  - by rewrite <- is_substring_spec.
Qed.

(** C4.  The two substring strategies disagree: on the line [bbba] and the
    query [abb], [kmp_search] answers [False] and [boyer_moore_search]
    answers [True]; on a dataset made of one empty line and the empty query,
    [kmp_search] answers [False] and [boyer_moore_search] answers [True]. *)
Theorem substring_strategies_disagree :
  ((kmp_search [str_of "bbba"] (str_of "abb")).1 = Ret false ∧
   ∀ fuel,
     (boyer_moore_search (S (S fuel)) [str_of "bbba"] (str_of "abb")).1
     = Ret true) ∧
  ((kmp_search [[]] []).1 = Ret false ∧
   ∀ fuel, (boyer_moore_search (S fuel) [[]] []).1 = Ret true).
Proof.
  repeat split; intros; reflexivity.
Qed.

(** C7.  Two of the five strategies do not always return.  With the empty
    query, [kmp_search] raises [IndexError] on a non-empty line when it
    reads [pattern[0]].  With the query [ab] on the line [bb],
    [boyer_moore_search] never leaves its loop: no amount of fuel produces a
    result.  With the query [abb] on the line [bbb] it raises [IndexError]
    after moving backwards past the start of the line. *)
Theorem substring_strategies_not_total :
  (kmp_search [str_of "abc"] []).1 = Raise IndexError ∧
  (∀ fuel, (boyer_moore_search fuel [str_of "bb"] (str_of "ab")).1 = Diverge) ∧
  (∀ fuel,
     (boyer_moore_search (5 + fuel) [str_of "bbb"] (str_of "abb")).1
     = Raise IndexError).
Proof.
  split; [reflexivity|split].
  - intros fuel. unfold boyer_moore_search.
    change (preprocess (str_of "ab"))
      with (Ret (<[98%N := 1]> (<[97%N := 1]> (∅ : gmap char Z)))).
    cbn -[bm_scan str_of]. rewrite bm_scan_ab_bb; [done|].
    apply lookup_insert_eq.
  - intros fuel. reflexivity.
Qed.

(** ** The server *)

Lemma read_file_cases (fs : filesystem) (path : str) :
  (∃ D, read_file fs path = ([EvReadFile path], Ret D)) ∨
  (∃ e, read_file fs path = ([EvReadFile path], Raise e)).
Proof.
  unfold read_file. destruct (fs !! path) as [[text|e]|]; cbn; eauto.
Qed.

Lemma verdict_cases (D : list str) (q : str) :
  (if list_contains D q then mret STRING_EXISTS else mret STRING_NOT_FOUND)
  = (mret (verdict D q) : io str).
Proof.
  unfold verdict. rewrite list_contains_spec. by destruct (bool_decide _).
Qed.

Lemma verdicts_differ : STRING_EXISTS ≠ STRING_NOT_FOUND.
Proof. discriminate. Qed.

Lemma encode_verdict (D : list str) (q : str) :
  ∃ line, encode (verdict D q) = Ret line ∧ line ++ [x0a] = verdict_line D q.
Proof.
  unfold verdict, verdict_line.
  destruct (bool_decide (q ∈ D)); eexists; split; reflexivity.
Qed.

(** The events of [process_query]: one read of the file when rereading is
    on, nothing otherwise. *)
Lemma process_query_cases (self : Server) (fs : filesystem) (q : str) :
  let events :=
    if bool_decide (reread_on_query self ≠ 0)
    then [EvReadFile (file_path self)] else [] in
  (∃ D, consults self fs D ∧
        process_query self fs q = (events, Ret (verdict D q))) ∨
  (∃ e, (∀ D, ¬ consults self fs D) ∧
        process_query self fs q = (events, Raise e)).
Proof.
  intros events. subst events. unfold process_query, consults.
  destruct (decide (reread_on_query self = 0)) as [Hz|Hnz].
  - rewrite bool_decide_eq_false_2 by (intros ?; done).
    destruct (file_contents self) as [D|] eqn:HD.
    + left. exists D. split; [by left|].
      cbn -[verdict list_contains STRING_EXISTS STRING_NOT_FOUND].
      by rewrite verdict_cases.
    + right. exists TypeError. split; [|done].
      intros D [[_ ?]|[? _]]; done.
  - rewrite bool_decide_eq_true_2 by done.
    destruct (read_file_cases fs (file_path self)) as [[D HD]|[e He]].
    + left. exists D. split; [right; by rewrite HD|].
      rewrite HD.
      cbn -[verdict list_contains STRING_EXISTS STRING_NOT_FOUND].
      by rewrite verdict_cases.
    + right. exists e. split; [|by rewrite He].
      intros D [[? _]|[_ HD]]; [done|]. by rewrite He in HD.
Qed.

Lemma consults_unique (self : Server) (fs : filesystem) (D D' : list str) :
  consults self fs D → consults self fs D' → D = D'.
Proof.
  intros [[? H1]|[? H1]] [[? H2]|[? H2]]; try done; congruence.
Qed.

Lemma process_query_consults (self : Server) (fs : filesystem)
    (D : list str) (q : str) :
  consults self fs D →
  process_query self fs q =
  (if bool_decide (reread_on_query self ≠ 0)
   then [EvReadFile (file_path self)] else [], Ret (verdict D q)).
Proof.
  intros HD.
  destruct (process_query_cases self fs q) as [(D' & HD' & ->)|(e & Hno & _)].
  - by rewrite (consults_unique _ _ _ _ HD HD').
  - by destruct (Hno D).
Qed.

Lemma decode_cases (raw : bytes) :
  (∃ text, decode raw = Ret text) ∨ decode raw = Raise UnicodeDecodeError.
Proof.
  remember (length raw) as n eqn:Hn.
  assert (length raw ≤ n)%nat as Hle by lia. clear Hn.
  revert raw Hle. induction n as [|n IH]; intros raw Hle.
  { destruct raw; [left; by exists []|simpl in Hle; lia]. }
  assert (∀ (c : char) t, (length t ≤ n)%nat →
            (∃ text, (s ← decode t; Ret (c :: s)) = Ret text) ∨
            (s ← decode t; Ret (c :: s)) = Raise UnicodeDecodeError) as Hk.
  { intros c t Ht. destruct (IH t Ht) as [[s ->]| ->]; [left|right]; eauto. }
  destruct raw as [|b0 t0]; [left; by exists []|].
  cbn [decode]. simpl in Hle.
  repeat case_match; subst; simpl in Hle;
    try (by right); apply Hk; lia.
Qed.

Lemma io_bind_ret {A B} (t : list event) (a : A) (f : A → io B) :
  ((t, Ret a) : io A) ≫= f = (t ++ (f a).1, (f a).2).
Proof. unfold mbind, io_bind. by destruct (f a). Qed.

Lemma io_bind_raise {A B} (t : list event) (e : exn) (f : A → io B) :
  ((t, Raise e) : io A) ≫= f = (t, Raise e).
Proof. done. Qed.

Lemma handle_client_body_run (self : Server) (fs : filesystem)
    (conn : connection) (addr : address) :
  body_run self fs conn addr (handle_client_body self fs conn addr).
Proof.
  unfold handle_client_body, conn_recv.
  destruct (recv_result conn) as [raw|e] eqn:Hrecv.
  2:{ by apply run_recv_fails. }
  cbn -[decode process_query strip encode conn_sendall].
  destruct (decode_cases raw) as [[text Htext]|Hbad].
  2:{ rewrite Hbad. by eapply run_decode_fails. }
  rewrite Htext.
  destruct (process_query_cases self fs (strip text))
    as [(D & HD & Hq)|(e & Hno & Hq)].
  2:{ cbn -[process_query strip]. rewrite Hq, io_bind_raise.
      by eapply run_query_fails. }
  cbn -[process_query strip encode]. rewrite Hq, io_bind_ret.
  destruct (encode_verdict D (strip text)) as (line & Hline & Hnl).
  rewrite Hline. unfold conn_sendall.
  destruct (sendall_result conn) as [e|] eqn:Hsend;
    cbn -[strip]; rewrite Hnl, ?app_nil_r.
  - eapply run_send_fails; eauto.
  - eapply run_completes; eauto.
Qed.

Lemma handle_client_of_body (self : Server) (fs : filesystem)
    (conn : connection) (addr : address) :
  handle_client self fs conn addr =
  match handle_client_body self fs conn addr with
  | (t, Ret _) => (t ++ [EvClose], Ret tt)
  | (t, Raise e) => (t ++ [EvLogError addr e; EvClose], Ret tt)
  | (t, Diverge) => (t ++ [EvClose], Diverge)
  end.
Proof.
  unfold handle_client.
  destruct (handle_client_body self fs conn addr) as [t [[]|e|]]; cbn;
    by rewrite <- ?(assoc_L (++)).
Qed.

Lemma count_events_snoc {A} (P : event → bool) (t : list event)
    (ev : event) (r : outcome A) :
  Forall (λ ev, P ev = false) t → P ev = true →
  count_events P (t ++ [ev], r) = 1%nat.
Proof.
  intros Ht Hev. unfold count_events. cbn [fst].
  rewrite filter_app, length_app.
  replace (filter _ t) with (@nil event).
  - rewrite filter_cons_True by done. reflexivity.
  - induction Ht as [|x t Hx Ht IH]; [done|].
    rewrite filter_cons_False by congruence. exact IH.
Qed.

(** Every run of the handler returns normally, and ends with the only
    [close] of the run. *)
Lemma handle_client_closes (self : Server) (fs : filesystem)
    (conn : connection) (addr : address) :
  ∃ t, handle_client self fs conn addr = (t ++ [EvClose], Ret tt) ∧
       Forall (λ ev, is_close ev = false) t.
Proof.
  rewrite handle_client_of_body.
  set (reads := if bool_decide (reread_on_query self ≠ 0)
                then [EvReadFile (file_path self)] else []).
  assert (Forall (λ ev, is_close ev = false) reads) as Hreads.
  { subst reads. destruct (bool_decide _); repeat constructor. }
  destruct (handle_client_body_run self fs conn addr)
    as [e He|raw e Hr He|raw text e Hr Ht Hno|raw text D e Hr Ht HD Hs
        |raw text D Hr Ht HD Hs]; fold reads.
  - exists [EvRecv 1024; EvLogError addr e]. by repeat constructor.
  - exists [EvRecv 1024; EvLogError addr e]. by repeat constructor.
  - exists ([EvRecv 1024] ++ reads ++ [EvLogError addr e]). split.
    + by rewrite <- !(assoc_L (++)).
    + rewrite !Forall_app. by repeat constructor.
  - exists ([EvRecv 1024] ++ reads ++
            [EvSendall (verdict_line D (strip text)); EvLogError addr e]).
    split.
    + by rewrite <- !(assoc_L (++)).
    + rewrite !Forall_app. by repeat constructor.
  - exists ([EvRecv 1024] ++ reads ++
            [EvSendall (verdict_line D (strip text));
             EvLogDebug (strip text) addr]).
    split.
    + by rewrite <- !(assoc_L (++)).
    + rewrite !Forall_app. by repeat constructor.
Qed.

(** What a run of the handler sends: nothing when a step before [sendall]
    raised, in which case that exception is logged; otherwise the verdict
    line for the stripped text on the dataset consulted. *)
Lemma handle_client_sends (self : Server) (fs : filesystem)
    (conn : connection) (addr : address) :
  let run := handle_client self fs conn addr in
  (∃ e, sendall_calls run = [] ∧ EvLogError addr e ∈ run.1 ∧
        (recv_result conn = inr e ∨
         (∃ raw, recv_result conn = inl raw ∧ decode raw = Raise e) ∨
         (∀ D, ¬ consults self fs D))) ∨
  (∃ raw text D,
     recv_result conn = inl raw ∧ decode raw = Ret text ∧
     consults self fs D ∧
     sendall_calls run = [verdict_line D (strip text)]).
Proof.
  intros run. subst run. rewrite handle_client_of_body.
  destruct (handle_client_body_run self fs conn addr)
    as [e He|raw e Hr He|raw text e Hr Ht Hno|raw text D e Hr Ht HD Hs
        |raw text D Hr Ht HD Hs].
  - left. exists e. repeat split; [|by left].
    apply list_elem_of_In. simpl. tauto.
  - left. exists e. repeat split; [|right; left; by exists raw].
    apply list_elem_of_In. simpl. tauto.
  - left. exists e.
    destruct (bool_decide (reread_on_query self ≠ 0));
      (repeat split; [|by right; right]);
      apply list_elem_of_In; simpl; tauto.
  - right. exists raw, text, D. repeat split; try done.
    by destruct (bool_decide (reread_on_query self ≠ 0)).
  - right. exists raw, text, D. repeat split; try done.
    by destruct (bool_decide (reread_on_query self ≠ 0)).
Qed.

(** C1.  On the dataset [D] that the query consults, [process_query]
    returns [STRING EXISTS] if and only if the query is equal to a line of
    [D], and [STRING NOT FOUND] otherwise; a handler that received the query
    calls [sendall] once, with that verdict followed by one newline. *)
Theorem process_query_verdict
    (self : Server) (fs : filesystem) (D : list str) (q : str) :
  consults self fs D →
  (process_query self fs q).2 = Ret (verdict D q) ∧
  ((process_query self fs q).2 = Ret STRING_EXISTS ↔ q ∈ D) ∧
  ((process_query self fs q).2 = Ret STRING_NOT_FOUND ↔ q ∉ D) ∧
  ∀ conn addr raw text,
    recv_result conn = inl raw → decode raw = Ret text → strip text = q →
    sendall_calls (handle_client self fs conn addr) = [verdict_line D q].
Proof.
  intros HD. rewrite (process_query_consults self fs D q HD).
  cbn [snd]. unfold verdict. repeat split.
  - intros Heq. destruct (decide (q ∈ D)) as [|Hn]; [done|].
    rewrite bool_decide_eq_false_2 in Heq by done. discriminate.
  - intros Hin. by rewrite bool_decide_eq_true_2.
  - intros Heq Hin. rewrite bool_decide_eq_true_2 in Heq by done.
    discriminate.
  - intros Hn. by rewrite bool_decide_eq_false_2.
  - intros conn addr raw text Hr Ht <-.
    destruct (handle_client_sends self fs conn addr)
      as [(e & _ & _ & [He|[(raw' & Hr' & He)|Hno]])
         |(raw' & text' & D' & Hr' & Ht' & HD' & ->)].
    + congruence.
    + congruence.
    + by destruct (Hno D).
    + rewrite (consults_unique _ _ _ _ HD' HD). congruence.
Qed.

(** The end-to-end scenario: a dataset file of two lines, loaded once at
    start-up. *)
Lemma process_query_verdict_witness :
  let line1 := str_of "10;0;1;26;0;9;3;0;" in
  let line2 := str_of "7;0;21;16;0;22;4;0;" in
  let path := str_of "200k.txt" in
  let fs : filesystem :=
    {[ path := Readable (line1 ++ [10%N] ++ line2 ++ [10%N]) ]} in
  let self := {| ssl_enabled := 0; reread_on_query := 0; file_path := path;
                 file_contents := Some [line1; line2] |} in
  (Server_init fs 0 0 path).2 = Ret self ∧
  ((process_query self fs line1).2 = Ret STRING_EXISTS ∧
   sendall_calls
     (handle_client self fs
        {| recv_result := inl (bytes_of "10;0;1;26;0;9;3;0;" ++ [x0a]);
           sendall_result := None |} (str_of "127.0.0.1", 50000))
   = [bytes_of "STRING EXISTS" ++ [x0a]]) ∧
  ((process_query self fs (str_of "99;0;0;0;")).2 = Ret STRING_NOT_FOUND ∧
   sendall_calls
     (handle_client self fs
        {| recv_result := inl (bytes_of "99;0;0;0;");
           sendall_result := None |} (str_of "127.0.0.1", 50001))
   = [bytes_of "STRING NOT FOUND" ++ [x0a]]).
Proof.
  intros line1 line2 path fs self.
  assert (consults self fs [line1; line2]) as HD by (by left).
  split; [reflexivity|]. split.
  - destruct (process_query_verdict self fs [line1; line2] line1 HD)
      as (Hv & _ & _ & Hsend).
    split; [exact Hv|].
    exact (Hsend {| recv_result := inl (bytes_of "10;0;1;26;0;9;3;0;" ++ [x0a]);
                    sendall_result := None |} _ _
                 (line1 ++ [10%N]) eq_refl eq_refl eq_refl).
  - destruct (process_query_verdict self fs [line1; line2]
                (str_of "99;0;0;0;") HD) as (Hv & _ & _ & Hsend).
    split; [exact Hv|].
    exact (Hsend {| recv_result := inl (bytes_of "99;0;0;0;");
                    sendall_result := None |} _ _
                 (str_of "99;0;0;0;") eq_refl eq_refl eq_refl).
Defined.



(** ** Whitespace *)

Lemma lstrip_spec (s : str) :
  ∃ pre, s = pre ++ lstrip s ∧ Forall (λ c, isspace c = true) pre.
Proof.
  induction s as [|c s (pre & Heq & Hpre)]; [by exists []|].
  simpl. destruct (isspace c) eqn:Hc.
  - exists (c :: pre). split; [by rewrite Heq at 1|by constructor].
  - by exists [].
Qed.

Lemma lstrip_head (s : str) (c : char) :
  head (lstrip s) = Some c → isspace c = false.
Proof.
  induction s as [|x s IH]; [done|].
  simpl. destruct (isspace x) eqn:Hx; [done|].
  simpl. congruence.
Qed.

(** [strip] removes a run of whitespace at each end and nothing else, and
    what is left neither starts nor ends with whitespace. *)
Lemma strip_spec (text : str) :
  (∃ pre post, text = pre ++ strip text ++ post ∧
               Forall (λ c, isspace c = true) pre ∧
               Forall (λ c, isspace c = true) post) ∧
  (∀ c, head (strip text) = Some c → isspace c = false) ∧
  (∀ c, last (strip text) = Some c → isspace c = false).
Proof.
  unfold strip, rstrip.
  destruct (lstrip_spec text) as (pre & Hpre & Hsp).
  destruct (lstrip_spec (reverse (lstrip text))) as (erp & Herp & Hsp').
  set (core := lstrip (reverse (lstrip text))) in *.
  assert (lstrip text = reverse core ++ reverse erp) as Hmid.
  { rewrite <- reverse_app, <- Herp. by rewrite reverse_involutive. }
  split; [|split].
  - exists pre, (reverse erp). split; [|split]; [congruence|done|].
    by apply Forall_reverse.
  - intros c Hc. apply (lstrip_head text). rewrite Hmid.
    destruct (reverse core); [done|exact Hc].
  - intros c Hc. apply (lstrip_head (reverse (lstrip text))). fold core.
    rewrite last_reverse in Hc. exact Hc.
Qed.

(** C6, as the code has it.  Every run of [handle_client] returns normally
    and closes the connection exactly once, as its last action.  It calls
    [sendall] at most once: once, with the verdict line, when the query was
    received and decoded and its dataset could be consulted; not at all when
    rereading is on and the dataset file cannot be read, in which case the
    error is logged and nothing is sent to the client. *)
Theorem connection_contract
    (self : Server) (fs : filesystem) (conn : connection) (addr : address) :
  let run := handle_client self fs conn addr in
  run.2 = Ret tt ∧
  count_events is_close run = 1%nat ∧
  last run.1 = Some EvClose ∧
  (length (sendall_calls run) ≤ 1)%nat ∧
  (∀ raw text D,
     recv_result conn = inl raw → decode raw = Ret text →
     consults self fs D →
     sendall_calls run = [verdict_line D (strip text)]) ∧
  (∀ e,
     reread_on_query self ≠ 0 →
     (read_file fs (file_path self)).2 = Raise e →
     sendall_calls run = [] ∧ ∃ e', EvLogError addr e' ∈ run.1).
Proof.
  intros run. subst run.
  destruct (handle_client_closes self fs conn addr) as (t & Hrun & Hnoclose).
  split; [by rewrite Hrun|]. split; [|split].
  { rewrite Hrun. by apply count_events_snoc. }
  { rewrite Hrun. apply last_snoc. }
  destruct (handle_client_sends self fs conn addr)
    as [(e & Hsent & Hlog & Hwhy)|(raw & text & D & Hr & Ht & HD & Hsent)];
    rewrite Hsent.
  - split; [simpl; lia|]. split.
    + intros raw text D Hr Ht HD.
      destruct Hwhy as [?|[(? & ? & ?)|Hno]]; [congruence..|].
      by destruct (Hno D).
    + intros _ _ _. split; [done|]. by exists e.
  - split; [simpl; lia|]. split.
    + intros raw' text' D' Hr' Ht' HD'.
      rewrite (consults_unique _ _ _ _ HD HD'). congruence.
    + intros e Hre He. destruct HD as [[? _]|[_ HD]]; [done|].
      by rewrite He in HD.
Qed.

(** A connection served while the dataset file does not exist, rereading
    being on. *)
Lemma connection_contract_witness :
  let path := str_of "200k.txt" in
  let self := {| ssl_enabled := 0; reread_on_query := 1; file_path := path;
                 file_contents := None |} in
  let fs : filesystem := ∅ in
  let conn := {| recv_result := inl (bytes_of "hello");
                 sendall_result := None |} in
  let addr : address := (str_of "127.0.0.1", 50000) in
  let run := handle_client self fs conn addr in
  run.2 = Ret tt ∧
  count_events is_close run = 1%nat ∧
  last run.1 = Some EvClose ∧
  (length (sendall_calls run) ≤ 1)%nat ∧
  sendall_calls run = [] ∧ ∃ e', EvLogError addr e' ∈ run.1.
Proof.
  intros path self fs conn addr run.
  destruct (connection_contract self fs conn addr)
    as (Hret & Hclose & Hlast & Hle & _ & Hmissing).
  repeat split; try assumption;
    apply (Hmissing FileNotFoundError); [discriminate|reflexivity].
Defined.

(** C6, as the claim states it, fails: with rereading on and no dataset
    file, the handler receives the query, fails to read the file, logs the
    error and closes the connection without sending any response line. *)
Lemma missing_dataset_sends_nothing :
  let path := str_of "200k.txt" in
  let self := {| ssl_enabled := 0; reread_on_query := 1; file_path := path;
                 file_contents := None |} in
  let conn := {| recv_result := inl (bytes_of "hello");
                 sendall_result := None |} in
  let addr : address := (str_of "127.0.0.1", 50000) in
  (Server_init ∅ 0 1 path).2 = Ret self ∧
  handle_client self ∅ conn addr =
    ([EvRecv 1024; EvReadFile path; EvLogError addr FileNotFoundError;
      EvClose], Ret tt) ∧
  length (sendall_calls (handle_client self ∅ conn addr)) ≠ 1%nat.
Proof.
  intros path self conn addr. split; [reflexivity|].
  split; [reflexivity|]. discriminate.
Qed.

(** C8, as the code has it.  The query given to [process_query], and later
    to [log_query], is the decoded text with the whitespace removed at both
    ends: the text is that query between two runs of whitespace, and the
    query neither starts nor ends with whitespace. *)
Theorem query_is_stripped_text
    (self : Server) (fs : filesystem) (conn : connection) (addr : address)
    (raw : bytes) (text : str) :
  recv_result conn = inl raw → decode raw = Ret text →
  let data := strip text in
  handle_client_body self fs conn addr =
    (_ ← emit (EvRecv 1024);
     response ← process_query self fs data;
     encoded ← lift (encode response);
     _ ← conn_sendall conn (encoded ++ [x0a]);
     log_query data addr) ∧
  (∃ pre post, text = pre ++ data ++ post ∧
               Forall (λ c, isspace c = true) pre ∧
               Forall (λ c, isspace c = true) post) ∧
  (∀ c, head data = Some c → isspace c = false) ∧
  (∀ c, last data = Some c → isspace c = false).
Proof.
  intros Hr Ht data. split; [|apply strip_spec].
  unfold handle_client_body, conn_recv. rewrite Hr.
  cbn -[decode process_query strip encode conn_sendall log_query].
  rewrite Ht. fold data.
  cbn -[process_query strip encode conn_sendall log_query].
  by destruct (process_query self fs data ≫= _).
Qed.

(** A payload with whitespace on both sides of the query. *)
Lemma query_is_stripped_text_witness :
  let self := {| ssl_enabled := 0; reread_on_query := 0;
                 file_path := str_of "200k.txt";
                 file_contents := Some [str_of " abc"] |} in
  let fs : filesystem := ∅ in
  let conn := {| recv_result := inl (bytes_of " abc" ++ [x0a]);
                 sendall_result := None |} in
  let addr : address := (str_of "127.0.0.1", 50000) in
  let data := str_of "abc" in
  handle_client_body self fs conn addr =
    (_ ← emit (EvRecv 1024);
     response ← process_query self fs data;
     encoded ← lift (encode response);
     _ ← conn_sendall conn (encoded ++ [x0a]);
     log_query data addr) ∧
  (∃ pre post, str_of " abc" ++ [10%N] = pre ++ data ++ post ∧
               Forall (λ c, isspace c = true) pre ∧
               Forall (λ c, isspace c = true) post) ∧
  (∀ c, head data = Some c → isspace c = false) ∧
  (∀ c, last data = Some c → isspace c = false).
Proof.
  intros self fs conn addr data.
  exact (query_is_stripped_text self fs conn addr
           (bytes_of " abc" ++ [x0a]) (str_of " abc" ++ [10%N])
           eq_refl eq_refl).
Defined.

(** C8, as the claim states it, fails: the payload is the query [abc]
    preceded by a space and followed by a newline.  Removing the trailing
    whitespace only would leave the space in front, and that text is a line
    of the dataset; the handler looks up [abc] instead, answers that it is
    not found, and logs [abc]. *)
Lemma leading_whitespace_is_stripped :
  let self := {| ssl_enabled := 0; reread_on_query := 0;
                 file_path := str_of "200k.txt";
                 file_contents := Some [str_of " abc"] |} in
  let fs : filesystem := ∅ in
  let raw := bytes_of " abc" ++ [x0a] in
  let text := str_of " abc" ++ [10%N] in
  let conn := {| recv_result := inl raw; sendall_result := None |} in
  let addr : address := (str_of "127.0.0.1", 50000) in
  decode raw = Ret text ∧
  rstrip text = str_of " abc" ∧
  strip text = str_of "abc" ∧
  strip text ≠ rstrip text ∧
  (process_query self fs (rstrip text)).2 = Ret STRING_EXISTS ∧
  handle_client self fs conn addr =
    ([EvRecv 1024;
      EvSendall (bytes_of "STRING NOT FOUND" ++ [x0a]);
      EvLogDebug (str_of "abc") addr;
      EvClose], Ret tt).
Proof.
  intros self fs raw text conn addr.
  repeat split; try reflexivity. discriminate.
Qed.

(** ** The accept loop *)








(** [Thread.start] is not guarded either: when no thread can be created
    for the first connection, the loop is left and nobody is served. *)
Example start_failure_ends_accept_loop :
  let self := {| ssl_enabled := 0; reread_on_query := 0;
                 file_path := str_of "200k.txt";
                 file_contents := Some [str_of "abc"] |} in
  let a := {| arr_conn := {| recv_result := inl (bytes_of "abc");
                             sendall_result := None |};
              arr_addr := (str_of "10.0.0.2", 50000);
              arr_fs := ∅ |} in
  accept_loop self [StartRaises a RuntimeError; Accepted a]
  = ([], Raise RuntimeError).
Proof. reflexivity. Qed.

(** * Further properties of the matcher strategies *)

Lemma setitem_inside {A} (l : list A) (i : Z) (x : A) :
  0 ≤ i < len l → setitem l i x = Ret (<[Z.to_nat i := x]> l).
Proof.
  intros Hi. unfold setitem, len in *.
  rewrite (proj2 (Z.ltb_ge i 0)) by lia.
  rewrite (proj2 (Z.leb_le 0 i)) by lia.
  by rewrite (proj2 (Z.ltb_lt i _)) by lia.
Qed.

Lemma for_in_returns {S A} (body : S → A → outcome S)
    (I : nat → S → Prop) (xs : list A) (st : S) :
  I O st →
  (∀ k st x, xs !! k = Some x → I k st →
             ∃ st', body st x = Ret st' ∧ I (Datatypes.S k) st') →
  ∃ st', for_in body st xs = Ret st' ∧ I (length xs) st'.
Proof.
  revert I st. induction xs as [|x xs IH]; intros I st H0 Hstep.
  - by exists st.
  - destruct (Hstep O st x eq_refl H0) as (st1 & Hst1 & H1).
    destruct (IH (λ k, I (Datatypes.S k)) st1 H1) as (st' & Hrun & Hst').
    { intros k s y Hy. by apply (Hstep (Datatypes.S k)). }
    exists st'. split; [|done]. simpl. by rewrite Hst1.
Qed.

Lemma kmp_table_step_returns (pattern : str) (table : list Z) (i j : Z) :
  length table = length pattern → table_bounded table →
  0 ≤ j < i → i < len pattern →
  ∃ table' j',
    kmp_table_step pattern (table, j) i = Ret (table', j') ∧
    length table' = length pattern ∧ table_bounded table' ∧
    0 ≤ j' < i + 1.
Proof.
  intros Hlen Htab Hj Hi.
  assert (∃ table' j', kmp_table_step pattern (table, j) i = Ret (table', j')
                       ∧ length table' = length pattern)
    as (table' & j' & E & Hlen').
  { unfold kmp_table_step.
    destruct (getitem_inside pattern i) as (pi & _ & ->); [lia|].
    destruct (getitem_inside pattern j) as (pj & _ & ->); [lia|].
    cbn. destruct (bool_decide (pi = pj)).
    - rewrite setitem_inside by (unfold len in *; lia).
      eexists _, _. split; [reflexivity|]. by rewrite length_insert.
    - destruct (bool_decide (j ≠ 0)) eqn:Hnz.
      + apply bool_decide_eq_true in Hnz.
        destruct (getitem_inside table (j - 1)) as (x & _ & ->);
          [unfold len in *; lia|].
        by eexists _, _.
      + rewrite setitem_inside by (unfold len in *; lia).
        eexists _, _. split; [reflexivity|]. by rewrite length_insert. }
  exists table', j'.
  destruct (kmp_table_step_bounded _ _ _ _ _ _ Htab Hj E) as [? ?].
  split; [done|]. split; [done|]. split; [done|lia].
Qed.

(** The failure table is always built: [kmp_table] never raises, whatever
    the pattern. *)
Lemma kmp_table_returns (pattern : str) :
  ∃ table, kmp_table pattern = Ret table ∧
           length table = length pattern ∧ table_bounded table.
Proof.
  unfold kmp_table.
  destruct (for_in_returns (kmp_table_step pattern)
              (λ k st, length st.1 = length pattern ∧ table_bounded st.1 ∧
                       0 ≤ st.2 < 1 + Z.of_nat k)
              (range 1 (len pattern)) (replicate (length pattern) 0, 0))
    as ([table j] & -> & Hlen & Htab & _).
  - cbn. split; [by rewrite length_replicate|]. split; [|lia].
    intros k x Hx. apply lookup_replicate in Hx as [-> _]. lia.
  - intros k [t1 j1] i Hi (Hl1 & Ht1 & Hj1). cbn [fst snd] in *.
    unfold range in Hi. apply lookup_seqZ in Hi as [-> Hk].
    destruct (kmp_table_step_returns pattern t1 (1 + Z.of_nat k) j1)
      as (t2 & j2 & E & ? & ? & ?); try done; try lia.
    exists (t2, j2). cbn. split; [done|]. split; [done|]. split; [done|lia].
  - exists table. by cbn.
Qed.

(** With a non-empty pattern every index the loop of [kmp_search] uses is
    inside its sequence: the loop returns, and it can only return [True]
    on a line that is at least as long as the pattern. *)
Lemma kmp_scan_returns (pattern text : str) (table : list Z) :
  length table = length pattern → table_bounded table →
  ∀ (fuel : nat) (i j : Z),
    0 ≤ j ≤ i → j < len pattern →
    (Z.to_nat (2 * (len text - i) + j) < fuel)%nat →
    ∃ b : bool, kmp_scan fuel pattern text table i j = Ret b ∧
                (b = true → len pattern ≤ len text).
Proof.
  intros Hlen Htab fuel.
  induction fuel as [|fuel IH]; intros i j Hj Hjm Hfuel; [lia|].
  cbn [kmp_scan]. destruct (Z.ltb_spec i (len text)) as [Hi|Hi].
  2:{ by exists false. }
  destruct (getitem_inside pattern j) as (pj & _ & Hpj); [lia|].
  destruct (getitem_inside text i) as (ti & _ & Hti); [lia|].
  rewrite Hpj, Hti. cbn. destruct (decide (pj = ti)) as [->|Hne].
  - rewrite bool_decide_eq_true_2 by done.
    destruct (Z.eqb_spec (j + 1) (len pattern)) as [Hm|Hm].
    { exists true. split; [done|]. lia. }
    destruct (Z.ltb_spec (i + 1) (len text)).
    + destruct (getitem_inside pattern (j + 1)) as (pj' & _ & ->); [lia|].
      destruct (getitem_inside text (i + 1)) as (ti' & _ & ->); [lia|].
      cbn. destruct (bool_decide (pj' ≠ ti')); [|apply IH; lia].
      rewrite bool_decide_eq_true_2 by lia.
      destruct (getitem_inside table (j + 1 - 1)) as (x & Hx & ->);
        [unfold len in *; lia|].
      cbn. apply Htab in Hx. apply IH; lia.
    + cbn. apply IH; lia.
  - rewrite bool_decide_eq_false_2 by done.
    rewrite (proj2 (Z.eqb_neq j (len pattern))) by lia.
    rewrite (proj2 (Z.ltb_lt i (len text))) by done.
    rewrite Hpj, Hti. cbn. rewrite bool_decide_eq_true_2 by done.
    destruct (decide (j = 0)) as [->|Hnz].
    + rewrite bool_decide_eq_false_2 by (intros ?; done).
      apply IH; lia.
    + rewrite bool_decide_eq_true_2 by done.
      destruct (getitem_inside table (j - 1)) as (x & Hx & ->);
        [unfold len in *; lia|].
      cbn. apply Htab in Hx. apply IH; lia.
Qed.

(** While the pattern matches from the start of the line, the table is
    not consulted. *)
Lemma kmp_scan_prefix (pattern rest : str) (table : list Z) :
  ∀ (fuel : nat) (i : Z),
    0 ≤ i < len pattern → (Z.to_nat (len pattern - i) ≤ fuel)%nat →
    kmp_scan fuel pattern (pattern ++ rest) table i i = Ret true.
Proof.
  intros fuel. induction fuel as [|fuel IH]; intros i Hi Hfuel; [lia|].
  assert (len (pattern ++ rest) = len pattern + len rest) as Hn.
  { unfold len. rewrite length_app. lia. }
  assert (0 ≤ len rest) as Hrest by (unfold len; lia).
  assert (∀ k, 0 ≤ k < len pattern →
            ∃ c, getitem pattern k = Ret c ∧
                 getitem (pattern ++ rest) k = Ret c) as Hsame.
  { intros k Hk.
    destruct (getitem_inside pattern k) as (c & Hc & Hget); [done|].
    destruct (getitem_inside (pattern ++ rest) k) as (c' & Hc' & Hget');
      [lia|].
    rewrite lookup_app_l in Hc' by (unfold len in *; lia).
    exists c. split; [done|]. congruence. }
  cbn [kmp_scan]. rewrite (proj2 (Z.ltb_lt i _)) by lia.
  destruct (Hsame i Hi) as (c & -> & ->). cbn.
  rewrite bool_decide_eq_true_2 by done.
  destruct (Z.eqb_spec (i + 1) (len pattern)) as [Hm|Hm]; [done|].
  rewrite (proj2 (Z.ltb_lt (i + 1) _)) by lia.
  destruct (Hsame (i + 1) ltac:(lia)) as (c' & -> & ->). cbn.
  rewrite bool_decide_eq_false_2 by (intros ?; done).
  apply IH; lia.
Qed.

Lemma kmp_line_returns (q text : str) :
  q ≠ [] →
  ∃ (table : list Z) (b : bool),
    kmp_table q = Ret table ∧
    kmp_scan (S (2 * length text)) q text table 0 0 = Ret b ∧
    (b = true → len q ≤ len text).
Proof.
  intros Hq. destruct (kmp_table_returns q) as (table & Ht & Hlen & Htab).
  destruct (kmp_scan_returns q text table Hlen Htab
              (S (2 * length text)) 0 0) as (b & Hb & Hlong).
  - lia.
  - destruct q; [done|]. unfold len. simpl. lia.
  - unfold len. lia.
  - by exists table, b.
Qed.

Lemma kmp_lines_returns (D : list str) (q : str) :
  q ≠ [] → ∃ b : bool, kmp_lines q D = Ret b.
Proof.
  intros Hq. induction D as [|text D (b & IH)]; [by exists false|].
  cbn [kmp_lines].
  destruct (kmp_line_returns q text Hq) as (table & b' & -> & Hscan & _).
  cbn -[kmp_scan Nat.mul]. rewrite Hscan. cbn -[kmp_lines].
  destruct b'; [by exists true|by exists b].
Qed.

Lemma kmp_lines_empty_query (D : list str) :
  kmp_lines [] D =
  if bool_decide (Forall (λ line, line = []) D) then Ret false
  else Raise IndexError.
Proof.
  induction D as [|text D IH]; [done|].
  cbn [kmp_lines]. destruct text as [|c text].
  - cbn. rewrite IH. apply (f_equal (λ b : bool, if b then _ else _)).
    apply bool_decide_ext. rewrite Forall_cons. tauto.
  - rewrite bool_decide_eq_false_2; [done|].
    intros H%Forall_cons. by destruct H.
Qed.

Lemma kmp_lines_prefix (D : list str) (q rest : str) :
  q ≠ [] → q ++ rest ∈ D → kmp_lines q D = Ret true.
Proof.
  intros Hq Hin.
  induction D as [|text D IH]; [by apply elem_of_nil in Hin|].
  cbn [kmp_lines].
  destruct (kmp_line_returns q text Hq) as (table & b & -> & Hscan & _).
  cbn -[kmp_scan Nat.mul]. rewrite Hscan. cbn -[kmp_lines].
  destruct b; [done|].
  apply elem_of_cons in Hin as [<-|Hin]; [|by apply IH].
  rewrite kmp_scan_prefix in Hscan; [done| |].
  - destruct q; [done|]. unfold len. simpl. lia.
  - unfold len. rewrite length_app. lia.
Qed.

(** X1.  Given a non-empty query, [kmp_search] returns a boolean on every
    dataset: it neither raises nor runs for ever. *)
Theorem kmp_search_nonempty_query_returns (D : list str) (q : str) :
  q ≠ [] → ∃ b : bool, (kmp_search D q).1 = Ret b.
Proof. apply kmp_lines_returns. Qed.

Lemma kmp_search_nonempty_query_returns_witness :
  ∃ b : bool, (kmp_search [str_of "abcdef"] (str_of "cde")).1 = Ret b.
Proof.
  apply kmp_search_nonempty_query_returns. discriminate.
Defined.

(** X2.  Given the empty query, [kmp_search] returns [False] when every
    line of the dataset is empty (in particular on the empty dataset) and
    raises [IndexError] otherwise. *)
Theorem kmp_search_empty_query (D : list str) :
  (kmp_search D []).1 =
  if bool_decide (Forall (λ line, line = []) D) then Ret false
  else Raise IndexError.
Proof. apply kmp_lines_empty_query. Qed.

(** X3.  A non-empty query that starts a line of the dataset, or is equal
    to one, is found by [kmp_search]. *)
Theorem kmp_search_finds_prefix (D : list str) (q rest : str) :
  q ≠ [] → q ++ rest ∈ D → (kmp_search D q).1 = Ret true.
Proof. apply kmp_lines_prefix. Qed.

Lemma kmp_search_finds_prefix_witness :
  (kmp_search [str_of "xyz"; str_of "abaabaaa"] (str_of "abaab")).1
  = Ret true.
Proof.
  apply (kmp_search_finds_prefix _ _ (str_of "aaa")).
  - discriminate.
  - right. left.
Defined.

(** X4.  [kmp_table] never raises: for every pattern it returns a table with
    one entry for each character of the pattern, the entry at position [k]
    lying between [0] and [k]; the first entry is [0]. *)
Theorem kmp_table_shape (pattern : str) :
  ∃ table : list Z,
    kmp_table pattern = Ret table ∧
    length table = length pattern ∧
    (∀ (k : nat) (x : Z), table !! k = Some x → 0 ≤ x ≤ Z.of_nat k) ∧
    (pattern ≠ [] → table !! O = Some 0).
Proof.
  destruct (kmp_table_returns pattern) as (table & Hrun & Hlen & Htab).
  exists table. split; [done|]. split; [done|]. split; [exact Htab|].
  intros Hne. destruct table as [|x table].
  - destruct pattern; [done|]. simpl in Hlen. lia.
  - specialize (Htab O x eq_refl). simpl. f_equal. lia.
Qed.

Lemma kmp_table_shape_witness :
  ∃ table : list Z,
    kmp_table (str_of "abaaa") = Ret table ∧
    length table = 5%nat ∧
    (∀ (k : nat) (x : Z), table !! k = Some x → 0 ≤ x ≤ Z.of_nat k) ∧
    (str_of "abaaa" ≠ [] → table !! O = Some 0).
Proof. exact (kmp_table_shape (str_of "abaaa")). Defined.

Lemma preprocess_returns (pattern : str) :
  ∃ skip, preprocess pattern = Ret skip ∧
          skip_upto pattern (length pattern) skip.
Proof.
  unfold preprocess.
  destruct (for_in_returns
              (λ (skip : gmap char Z) i,
                 c ← getitem pattern i;
                 Ret (<[c := Z.max 1 (len pattern - i - 1)]> skip))
              (λ k skip, skip_upto pattern k skip)
              (range 0 (len pattern)) ∅) as (skip & Hrun & Hskip).
  - intros c v. rewrite lookup_empty. split; [done|].
    intros (idx & ? & _). lia.
  - intros k skip i Hi Hinv. unfold range in Hi.
    apply lookup_seqZ in Hi as [-> Hk]. rewrite Z.add_0_l.
    destruct (getitem_inside pattern (Z.of_nat k)) as (ck & Hck & ->);
      [lia|].
    rewrite Nat2Z.id in Hck. cbn. eexists. split; [reflexivity|].
    intros c v. destruct (decide (ck = c)) as [->|Hne].
    + rewrite lookup_insert_eq. split.
      * intros [= <-]. exists k.
        split; [lia|]. split; [done|]. split; [intros; lia|done].
      * intros (idx & Hidx & Hc & Hlast & ->).
        destruct (decide (idx = k)) as [->|]; [done|].
        destruct (Hlast k); [lia|done].
    + rewrite lookup_insert_ne by done. rewrite (Hinv c v). split.
      * intros (idx & Hidx & Hc & Hlast & ->). exists idx.
        split; [lia|]. split; [done|]. split; [|done].
        intros idx' Hidx'. destruct (decide (idx' = k)) as [->|].
        -- intros Heq. by pose proof (eq_trans (eq_sym Hck) Heq) as [= ?].
        -- apply Hlast. lia.
      * intros (idx & Hidx & Hc & Hlast & ->).
        assert (idx ≠ k).
        { intros ->. by pose proof (eq_trans (eq_sym Hck) Hc) as [= ?]. }
        exists idx. split; [lia|]. split; [done|]. split; [|done].
        intros idx' Hidx'. apply Hlast. lia.
  - exists skip. split; [done|].
    unfold range in Hskip. rewrite length_seqZ in Hskip.
    replace (Z.to_nat (len pattern - 0)) with (length pattern) in Hskip
      by (unfold len; lia).
    done.
Qed.

Lemma last_position {A} `{EqDecision A} (l : list A) (c : A) :
  c ∈ l →
  ∃ idx : nat, l !! idx = Some c ∧
               ∀ idx' : nat, (idx < idx')%nat → l !! idx' ≠ Some c.
Proof.
  induction l as [|x l IH] using rev_ind; [by intros ?%elem_of_nil|].
  intros Hin. destruct (decide (x = c)) as [->|Hne].
  - exists (length l). split.
    + by rewrite lookup_app_r, Nat.sub_diag by lia.
    + intros idx' Hidx'. rewrite lookup_ge_None_2; [done|].
      rewrite length_app. simpl. lia.
  - apply elem_of_app in Hin as [Hin|Hin%list_elem_of_singleton]; [|done].
    destruct (IH Hin) as (idx & Hidx & Hmax). exists idx. split.
    + rewrite lookup_app_l; [done|]. by eapply lookup_lt_Some.
    + intros idx' Hidx'. destruct (decide (idx' < length l)%nat).
      * rewrite lookup_app_l by done. by apply Hmax.
      * rewrite lookup_app_r by lia.
        destruct (idx' - length l)%nat; simpl; [congruence|done].
Qed.

(** X5.  The local function [preprocess] of [boyer_moore_search] never
    raises.  The keys of the dictionary it returns are the characters of
    the pattern; the value of a character is [max(1, m - 1 - k)] for its
    last position [k] in the pattern of length [m], so every value lies
    between [1] and [max(1, m - 1)] and the last character of the pattern
    has the value [1]. *)
Theorem preprocess_skip_table (pattern : str) :
  ∃ skip : gmap char Z,
    preprocess pattern = Ret skip ∧
    (∀ c, c ∉ pattern ↔ skip !! c = None) ∧
    (∀ (idx : nat) (c : char),
       pattern !! idx = Some c →
       (∀ idx' : nat, (idx < idx')%nat → pattern !! idx' ≠ Some c) →
       skip !! c = Some (Z.max 1 (len pattern - Z.of_nat idx - 1))) ∧
    (∀ c v, skip !! c = Some v → 1 ≤ v ≤ Z.max 1 (len pattern - 1)) ∧
    (∀ c, last pattern = Some c → skip !! c = Some 1).
Proof.
  destruct (preprocess_returns pattern) as (skip & Hrun & Hskip).
  exists skip. split; [done|].
  assert (∀ (idx : nat) (c : char),
            pattern !! idx = Some c →
            (∀ idx' : nat, (idx < idx')%nat → pattern !! idx' ≠ Some c) →
            skip !! c = Some (Z.max 1 (len pattern - Z.of_nat idx - 1)))
    as Hlast.
  { intros idx c Hc Hl. apply Hskip. exists idx.
    split; [by eapply lookup_lt_Some|]. split; [done|]. split; [|done].
    intros idx' ?. apply Hl. lia. }
  split; [|split; [done|split]].
  - intros c. split.
    + intros Hnot. destruct (skip !! c) as [v|] eqn:E; [|done].
      apply Hskip in E as (idx & _ & Hc & _). destruct Hnot.
      by eapply list_elem_of_lookup_2.
    + intros Hnone Hin. apply list_elem_of_lookup_1 in Hin as [idx Hidx].
      destruct (last_position pattern c) as (l & Hl & Hmax).
      { by eapply list_elem_of_lookup_2. }
      rewrite (Hlast l c Hl Hmax) in Hnone. done.
  - intros c v Hv. apply Hskip in Hv as (idx & Hidx & _ & _ & ->).
    unfold len. lia.
  - intros c Hc. rewrite last_lookup in Hc.
    rewrite (Hlast _ c Hc).
    + f_equal. assert (length pattern ≠ 0)%nat.
      { intros Hz. rewrite Hz in Hc. by destruct pattern. }
      unfold len. lia.
    + intros idx' Hidx' Heq. apply lookup_lt_Some in Heq. lia.
Qed.

Lemma preprocess_skip_table_witness :
  ∃ skip : gmap char Z,
    preprocess (str_of "abb") = Ret skip ∧
    (∀ c, c ∉ str_of "abb" ↔ skip !! c = None) ∧
    (∀ (idx : nat) (c : char),
       str_of "abb" !! idx = Some c →
       (∀ idx' : nat, (idx < idx')%nat → str_of "abb" !! idx' ≠ Some c) →
       skip !! c = Some (Z.max 1 (len (str_of "abb") - Z.of_nat idx - 1))) ∧
    (∀ c v, skip !! c = Some v → 1 ≤ v ≤ Z.max 1 (len (str_of "abb") - 1)) ∧
    (∀ c, last (str_of "abb") = Some c → skip !! c = Some 1).
Proof. exact (preprocess_skip_table (str_of "abb")). Defined.

Lemma bm_match_prefix (pattern rest : str) :
  ∀ (fuel : nat) (j : Z),
    -1 ≤ j < len pattern → (Z.to_nat (j + 1) < fuel)%nat →
    bm_match fuel pattern (pattern ++ rest) j j = Ret (-1, -1).
Proof.
  intros fuel. induction fuel as [|fuel IH]; intros j Hj Hfuel; [lia|].
  cbn [bm_match]. destruct (Z.leb_spec 0 j) as [Hpos|Hneg].
  - destruct (getitem_inside pattern j) as (c & Hc & ->); [lia|].
    destruct (getitem_inside (pattern ++ rest) j) as (c' & Hc' & ->).
    { unfold len in *. rewrite length_app. lia. }
    rewrite lookup_app_l in Hc' by (unfold len in *; lia).
    assert (c' = c) as -> by congruence.
    cbn. rewrite bool_decide_eq_true_2 by done. apply IH; lia.
  - cbn. f_equal. f_equal; lia.
Qed.

(** On one line: a line shorter than the pattern is left at once, and a
    line that starts with the pattern is accepted at the first
    alignment. *)
Lemma bm_scan_short (fuel : nat) (pattern text : str) (skip : gmap char Z) :
  len text < len pattern →
  bm_scan (S fuel) pattern text skip (len pattern - 1) = Ret false.
Proof.
  intros Hshort. cbn [bm_scan].
  by rewrite (proj2 (Z.ltb_ge _ _)) by lia.
Qed.

Lemma bm_scan_prefix (fuel : nat) (pattern rest : str)
    (skip : gmap char Z) :
  bm_scan (S fuel) pattern (pattern ++ rest) skip (len pattern - 1)
  = Ret true.
Proof.
  cbn [bm_scan]. rewrite (proj2 (Z.ltb_lt _ _)).
  2:{ unfold len. rewrite length_app. lia. }
  rewrite bm_match_prefix by (unfold len; lia). done.
Qed.

Lemma bm_lines_prefix (fuel : nat) (skip : gmap char Z)
    (short after : list str) (q rest : str) :
  Forall (λ line, len line < len q) short →
  bm_lines (S fuel) q skip (short ++ (q ++ rest) :: after) = Ret true.
Proof.
  intros Hshort. induction Hshort as [|line short Hline Hshort IH].
  - cbn [app bm_lines]. by rewrite bm_scan_prefix.
  - cbn [app bm_lines]. rewrite bm_scan_short by done. exact IH.
Qed.

(** X6.  [boyer_moore_search] passes over the lines that are shorter than
    the query, and answers [True] when the first line that is not shorter
    starts with the query (or is equal to it); one turn of fuel is
    enough. *)
Theorem boyer_moore_search_finds_prefix
    (fuel : nat) (short after : list str) (q rest : str) :
  Forall (λ line, len line < len q) short →
  (boyer_moore_search (S fuel) (short ++ (q ++ rest) :: after) q).1
  = Ret true.
Proof.
  intros Hshort. unfold boyer_moore_search. cbn [fst].
  destruct (preprocess_returns q) as (skip & -> & _). cbn -[bm_lines].
  by apply bm_lines_prefix.
Qed.

Lemma boyer_moore_search_finds_prefix_witness :
  (boyer_moore_search 1 ([str_of "ab"] ++ (str_of "abc" ++ str_of "d") :: [])
                      (str_of "abc")).1 = Ret true.
Proof.
  apply boyer_moore_search_finds_prefix.
  repeat constructor.
Defined.

(** X7.  Given the empty query, [boyer_moore_search] answers [True] as soon
    as the dataset has a line, even an empty one, and [False] on the empty
    dataset. *)
Theorem boyer_moore_search_empty_query (fuel : nat) (D : list str) :
  (boyer_moore_search (S fuel) D []).1 = Ret (bool_decide (D ≠ [])).
Proof.
  destruct D as [|line D]; [done|].
  rewrite bool_decide_eq_true_2 by done.
  unfold boyer_moore_search. cbn [fst].
  destruct (preprocess_returns []) as (skip & -> & _). cbn -[bm_lines].
  apply (bm_lines_prefix fuel skip [] D [] line). constructor.
Qed.

(** X8.  When every line of the dataset is shorter than the query (in
    particular on the empty dataset), the five strategies all return
    [False]. *)
Theorem short_lines_not_found (fuel : nat) (D : list str) (q : str) :
  Forall (λ line, len line < len q) D →
  (linear_search D q).1 = Ret false ∧
  (binary_search D q).1 = Ret false ∧
  (hash_table_search D q).1 = Ret false ∧
  (kmp_search D q).1 = Ret false ∧
  (boyer_moore_search (S fuel) D q).1 = Ret false.
Proof.
  intros Hshort.
  assert (q ∉ D) as Hnot.
  { intros Hin. rewrite Forall_forall in Hshort.
    specialize (Hshort q Hin). lia. }
  destruct (equality_strategies_spec D q) as (-> & -> & ->).
  rewrite bool_decide_eq_false_2 by done.
  split; [done|]. split; [done|]. split; [done|]. split.
  - unfold kmp_search. cbn [fst].
    induction Hshort as [|line D Hline Hshort IH]; [done|].
    assert (q ≠ []) as Hq.
    { intros ->. unfold len in Hline. simpl in Hline. lia. }
    cbn [kmp_lines].
    destruct (kmp_line_returns q line Hq) as (table & b & -> & Hscan & Hlong).
    cbn -[kmp_scan Nat.mul]. rewrite Hscan. cbn -[kmp_lines].
    destruct b; [specialize (Hlong eq_refl); lia|].
    apply IH. intros Hin. apply Hnot. by right.
  - unfold boyer_moore_search. cbn [fst].
    destruct (preprocess_returns q) as (skip & -> & _). cbn -[bm_lines].
    clear Hnot. induction Hshort as [|line D Hline Hshort IH]; [done|].
    cbn [bm_lines]. rewrite bm_scan_short by done. exact IH.
Qed.

Lemma short_lines_not_found_witness :
  let D := [str_of "ab"; []; str_of "abc"] in
  let q := str_of "abcd" in
  (linear_search D q).1 = Ret false ∧
  (binary_search D q).1 = Ret false ∧
  (hash_table_search D q).1 = Ret false ∧
  (kmp_search D q).1 = Ret false ∧
  (boyer_moore_search 1 D q).1 = Ret false.
Proof.
  apply (short_lines_not_found 0). repeat constructor.
Defined.

(** X9.  The list that [binary_search] leaves behind depends on the lines
    only, not on their order, and a second call leaves it as it is. *)
Theorem binary_search_sort_canonical (D D' : list str) (q q' : str) :
  D ≡ₚ D' →
  (binary_search D q).2 = (binary_search D' q').2 ∧
  (binary_search (binary_search D q).2 q').2 = (binary_search D q).2.
Proof.
  intros Hperm.
  destruct (binary_search_sorts D q) as (-> & Hs & Hp).
  destruct (binary_search_sorts D' q') as (-> & _ & _).
  destruct (binary_search_sorts (merge_sort str_le D) q') as (-> & _ & _).
  split.
  - apply sort_unique; [done|]. by rewrite merge_sort_Permutation.
  - symmetry. apply sort_unique; [|done].
    apply StronglySorted_merge_sort; apply _.
Qed.

Lemma binary_search_sort_canonical_witness :
  let D := [str_of "b"; str_of "a"; str_of "b"] in
  let D' := [str_of "a"; str_of "b"; str_of "b"] in
  (binary_search D (str_of "a")).2 = (binary_search D' (str_of "z")).2 ∧
  (binary_search (binary_search D (str_of "a")).2 (str_of "z")).2
  = (binary_search D (str_of "a")).2.
Proof.
  intros D D'. apply binary_search_sort_canonical.
  subst D D'. apply perm_swap.
Defined.

(** X10.  On a readable file and with a non-empty query the benchmark
    makes its three calls and each of them returns a boolean: the first two
    return whether the query is a line of the file, and [kmp_search], which
    receives the sorted lines, answers [True] whenever they do. *)
Theorem benchmark_nonempty_query
    (fs : filesystem) (path text q : str) :
  fs !! path = Some (Readable text) → q ≠ [] →
  let D := splitlines text in
  ∃ b : bool,
    benchmark_algorithms fs path q =
      [("linear_search"%string, D, Ret (bool_decide (q ∈ D)));
       ("binary_search"%string, D, Ret (bool_decide (q ∈ D)));
       ("kmp_search"%string, merge_sort str_le D, Ret b)] ∧
    (q ∈ D → b = true).
Proof.
  intros Hfile Hq D. unfold benchmark_algorithms. rewrite Hfile. fold D.
  rewrite run_algorithms_log.
  destruct (kmp_lines_returns (merge_sort str_le D) q Hq)
    as (b & Hb).
  exists b. unfold kmp_search. cbn [fst]. rewrite Hb. split; [done|].
  intros Hin.
  assert (kmp_lines q (merge_sort str_le D) = Ret true) as Htrue.
  { apply (kmp_lines_prefix _ q []); [done|].
    by rewrite app_nil_r, merge_sort_Permutation. }
  congruence.
Qed.

Lemma benchmark_nonempty_query_witness :
  let path := str_of "200k.txt" in
  let fs : filesystem :=
    {[ path := Readable (str_of "b" ++ [10%N] ++ str_of "a") ]} in
  let D := [str_of "b"; str_of "a"] in
  ∃ b : bool,
    benchmark_algorithms fs path (str_of "a") =
      [("linear_search"%string, D, Ret (bool_decide (str_of "a" ∈ D)));
       ("binary_search"%string, D, Ret (bool_decide (str_of "a" ∈ D)));
       ("kmp_search"%string, merge_sort str_le D, Ret b)] ∧
    (str_of "a" ∈ D → b = true).
Proof.
  intros path fs D.
  exact (benchmark_nonempty_query fs path _ (str_of "a") eq_refl
           ltac:(discriminate)).
Defined.

(** X11.  On a readable file and with the empty query, the third call of
    the benchmark, [kmp_search], raises [IndexError] as soon as the file has
    a non-empty line (and returns [False] otherwise).  The exception is not
    among those that [benchmark_algorithms] catches: the call of
    [benchmark_algorithms] itself then raises [IndexError], before anything
    is written; when every line is empty it goes on to write its results. *)
Theorem benchmark_empty_query
    (fs : filesystem) (path text : str) (csv_failure : option exn) :
  fs !! path = Some (Readable text) →
  let D := splitlines text in
  benchmark_algorithms fs path [] =
    [("linear_search"%string, D, Ret (bool_decide ([] ∈ D)));
     ("binary_search"%string, D, Ret (bool_decide ([] ∈ D)));
     ("kmp_search"%string, merge_sort str_le D,
      if bool_decide (Forall (λ line, line = []) D) then Ret false
      else Raise IndexError)] ∧
  benchmark_algorithms_call fs path [] csv_failure =
    if bool_decide (Forall (λ line, line = []) D)
    then except_file_not_found
           (_ ← write_csv csv_failure;
            Ret ["linear_search"%string; "binary_search"%string;
                 "kmp_search"%string])
    else Raise IndexError.
Proof.
  intros Hfile D.
  assert (run_algorithms algorithms D [] =
    [("linear_search"%string, D, Ret (bool_decide ([] ∈ D)));
     ("binary_search"%string, D, Ret (bool_decide ([] ∈ D)));
     ("kmp_search"%string, merge_sort str_le D,
      if bool_decide (Forall (λ line, line = []) D) then Ret false
      else Raise IndexError)]) as Hlog.
  { rewrite run_algorithms_log. unfold kmp_search. cbn [fst].
    rewrite kmp_lines_empty_query.
    do 3 f_equal. f_equal.
    apply (f_equal (λ b : bool, if b then _ else _)).
    apply bool_decide_ext. by rewrite merge_sort_Permutation. }
  split.
  - unfold benchmark_algorithms. rewrite Hfile. by fold D.
  - unfold benchmark_algorithms_call, read_file. rewrite Hfile.
    cbn [emit io_bind mbind mret io_ret fst snd outcome_bind app].
    change (splitlines text) with D. rewrite Hlog.
    cbn [results_of].
    by destruct (bool_decide (Forall (λ line, line = []) D)), csv_failure.
Qed.

Lemma benchmark_empty_query_witness :
  let path := str_of "200k.txt" in
  let fs : filesystem := {[ path := Readable (str_of "a") ]} in
  benchmark_algorithms fs path [] =
    [("linear_search"%string, [str_of "a"], Ret false);
     ("binary_search"%string, [str_of "a"], Ret false);
     ("kmp_search"%string, [str_of "a"], Raise IndexError)] ∧
  benchmark_algorithms_call fs path [] None = Raise IndexError.
Proof.
  intros path fs.
  exact (benchmark_empty_query fs path (str_of "a") None eq_refl).
Defined.

(** The same call on a missing file returns [None], and on a file that
    cannot be opened it raises. *)
Example benchmark_algorithms_call_no_file :
  benchmark_algorithms_call ∅ (str_of "200k.txt") [] None = Ret None ∧
  benchmark_algorithms_call
    {[ str_of "200k.txt" := Unreadable PermissionError ]}
    (str_of "200k.txt") [] None = Raise PermissionError.
Proof. split; reflexivity. Qed.

(** * Further properties of the server *)

(** ** Lines of a file *)

Lemma splitlines_from_no_break (n : nat) :
  ∀ (s cur : str),
    (length s ≤ n)%nat →
    Forall (λ c, is_linebreak c = false) cur →
    Forall (Forall (λ c, is_linebreak c = false)) (splitlines_from cur s).
Proof.
  induction n as [|n IH]; intros s cur Hlen Hcur.
  { destruct s; [|simpl in Hlen; lia]. simpl.
    destruct cur; [constructor|]. repeat constructor.
    by apply Forall_reverse. }
  destruct s as [|c rest]; simpl in *.
  { destruct cur; [constructor|]. repeat constructor.
    by apply Forall_reverse. }
  destruct (is_linebreak c) eqn:Hc.
  - constructor; [by apply Forall_reverse|].
    destruct rest as [|c' rest']; [constructor|].
    destruct (_ && _); apply IH; simpl in *; try lia; constructor.
  - apply IH; [lia|]. by constructor.
Qed.

Lemma splitlines_from_line (line cur rest : str) :
  Forall (λ c, is_linebreak c = false) line →
  splitlines_from cur (line ++ 10%N :: rest)
  = (reverse cur ++ line) :: splitlines_from [] rest.
Proof.
  revert cur. induction line as [|c line IH]; intros cur Hline.
  - simpl. rewrite app_nil_r. by destruct rest.
  - apply Forall_cons in Hline as [Hc Hline]. simpl. rewrite Hc.
    rewrite IH by done. by rewrite reverse_cons, <- (assoc_L (++)).
Qed.

Lemma splitlines_written (lines : list str) :
  Forall (Forall (λ c, is_linebreak c = false)) lines →
  splitlines (concat (map (λ line, line ++ [10%N]) lines)) = lines.
Proof.
  unfold splitlines. induction 1 as [|line lines Hline Hlines IH]; [done|].
  simpl. rewrite <- (assoc_L (++)). simpl.
  rewrite splitlines_from_line by done. simpl. by rewrite IH.
Qed.

Lemma read_file_no_break (fs : filesystem) (path : str) (D : list str) :
  (read_file fs path).2 = Ret D →
  ∀ line c, line ∈ D → c ∈ line → is_linebreak c = false.
Proof.
  unfold read_file. destruct (fs !! path) as [[text|e]|]; try done.
  cbn. intros [= <-] line c Hline Hc.
  pose proof (splitlines_from_no_break (length text) text []
                (le_n _) (Forall_nil_2 _)) as Hall.
  rewrite Forall_forall in Hall. specialize (Hall line Hline).
  rewrite Forall_forall in Hall. by apply Hall.
Qed.

(** X12.  No line that [read_file] returns contains a line terminator. *)
Theorem read_file_lines_unbroken
    (fs : filesystem) (path : str) (D : list str) :
  (read_file fs path).2 = Ret D →
  ∀ line c, line ∈ D → c ∈ line → is_linebreak c = false.
Proof. apply read_file_no_break. Qed.

Lemma read_file_lines_unbroken_witness :
  let path := str_of "200k.txt" in
  let fs : filesystem :=
    {[ path := Readable (str_of "a" ++ [13%N; 10%N] ++ str_of "b") ]} in
  (read_file fs path).2 = Ret [str_of "a"; str_of "b"] ∧
  (∀ line c, line ∈ [str_of "a"; str_of "b"] → c ∈ line →
             is_linebreak c = false).
Proof.
  intros path fs. split; [reflexivity|].
  exact (read_file_lines_unbroken fs path _ eq_refl).
Defined.

(** X13.  A file written as its lines, each followed by a newline, is read
    back by [read_file] as the same lines, in the same order and with their
    duplicates and empty lines, provided no line contains a line
    terminator. *)
Theorem read_file_round_trip
    (fs : filesystem) (path : str) (lines : list str) :
  fs !! path = Some (Readable (concat (map (λ line, line ++ [10%N]) lines))) →
  (∀ line c, line ∈ lines → c ∈ line → is_linebreak c = false) →
  read_file fs path = ([EvReadFile path], Ret lines).
Proof.
  intros Hfile Hlines. unfold read_file. rewrite Hfile. cbn.
  rewrite splitlines_written; [done|].
  apply Forall_forall. intros line Hline.
  apply Forall_forall. intros c Hc. by eapply Hlines.
Qed.

Lemma read_file_round_trip_witness :
  let path := str_of "200k.txt" in
  let lines := [str_of "b"; []; str_of "a"; str_of "b"] in
  let fs : filesystem :=
    {[ path := Readable (concat (map (λ line, line ++ [10%N]) lines)) ]} in
  read_file fs path = ([EvReadFile path], Ret lines).
Proof.
  intros path lines fs.
  apply (read_file_round_trip fs path lines eq_refl).
  intros line c Hline Hc. subst lines.
  repeat (apply elem_of_cons in Hline as [->|Hline]);
    try (by apply elem_of_nil in Hline);
    repeat (apply elem_of_cons in Hc as [->|Hc]);
    try (by apply elem_of_nil in Hc); reflexivity.
Defined.

(** ** Start-up *)

Lemma server_init_cases (fs0 : filesystem) (ssl reread : Z) (path : str) :
  Server_init fs0 ssl reread path =
  if bool_decide (reread = 0) then
    ([EvReadFile path],
     match (read_file fs0 path).2 with
     | Ret D => Ret {| ssl_enabled := ssl; reread_on_query := reread;
                       file_path := path; file_contents := Some D |}
     | Raise e => Raise e
     | Diverge => Diverge
     end)
  else
    ([], Ret {| ssl_enabled := ssl; reread_on_query := reread;
                file_path := path; file_contents := None |}).
Proof.
  unfold Server_init. destruct (bool_decide (reread = 0)); [|done].
  by destruct (read_file_cases fs0 path) as [[D ->]|[e ->]].
Qed.

(** X14.  [Server.__init__] with rereading on never touches the dataset
    file and always builds the server; with rereading off it reads the file
    once, and fails with the exception of that read when the file is missing
    or unreadable, so that no server is built. *)
Theorem server_init_dataset
    (fs0 : filesystem) (ssl reread : Z) (path : str) :
  (reread ≠ 0 →
     Server_init fs0 ssl reread path =
     ([], Ret {| ssl_enabled := ssl; reread_on_query := reread;
                 file_path := path; file_contents := None |})) ∧
  (reread = 0 →
     (Server_init fs0 ssl reread path).1 = [EvReadFile path] ∧
     (∀ e, (read_file fs0 path).2 = Raise e →
           (Server_init fs0 ssl reread path).2 = Raise e) ∧
     (∀ D, (read_file fs0 path).2 = Ret D →
           (Server_init fs0 ssl reread path).2 =
           Ret {| ssl_enabled := ssl; reread_on_query := reread;
                  file_path := path; file_contents := Some D |})).
Proof.
  rewrite server_init_cases. split.
  - intros Hre. by rewrite bool_decide_eq_false_2.
  - intros ->. rewrite bool_decide_eq_true_2 by done.
    split; [done|]. split; [intros e ->|intros D ->]; done.
Qed.

Lemma server_init_dataset_witness :
  let path := str_of "200k.txt" in
  (Server_init ∅ 0 1 path =
     ([], Ret {| ssl_enabled := 0; reread_on_query := 1;
                 file_path := path; file_contents := None |})) ∧
  (Server_init ∅ 0 0 path).1 = [EvReadFile path] ∧
  (Server_init ∅ 0 0 path).2 = Raise FileNotFoundError.
Proof.
  intros path.
  destruct (server_init_dataset ∅ 0 1 path) as [Hon _].
  destruct (server_init_dataset ∅ 0 0 path) as [_ Hoff].
  destruct (Hoff eq_refl) as (Hev & Hfail & _).
  split; [apply Hon; discriminate|]. split; [exact Hev|].
  by apply Hfail.
Defined.

(** X15.  A server built with rereading off answers every connection whose
    payload was received and decoded: it sends the verdict on the lines read
    at start-up, whatever has become of the file since. *)
Theorem static_server_always_answers
    (fs0 : filesystem) (ssl : Z) (path : str) (self : Server) :
  (Server_init fs0 ssl 0 path).2 = Ret self →
  ∃ D, (read_file fs0 path).2 = Ret D ∧
       ∀ (fs : filesystem) (conn : connection) (addr : address)
         (raw : bytes) (text : str),
         recv_result conn = inl raw → decode raw = Ret text →
         sendall_calls (handle_client self fs conn addr)
         = [verdict_line D (strip text)].
Proof.
  rewrite server_init_cases, bool_decide_eq_true_2 by done. cbn [snd].
  destruct (read_file fs0 path).2 as [D| |] eqn:HD; try done.
  intros Hself. exists D. split; [done|].
  intros fs conn addr raw text Hr Ht.
  assert (consults self fs D) as Hcons.
  { injection Hself as <-. by left. }
  destruct (handle_client_sends self fs conn addr)
    as [(e & _ & _ & [He|[(raw' & Hr' & He)|Hno]])
       |(raw' & text' & D' & Hr' & Ht' & HD' & ->)].
  - congruence.
  - congruence.
  - by destruct (Hno D).
  - rewrite (consults_unique _ _ _ _ HD' Hcons). congruence.
Qed.

Lemma static_server_always_answers_witness :
  let path := str_of "200k.txt" in
  let fs0 : filesystem := {[ path := Readable (str_of "a") ]} in
  let self := {| ssl_enabled := 0; reread_on_query := 0; file_path := path;
                 file_contents := Some [str_of "a"] |} in
  ∃ D, (read_file fs0 path).2 = Ret D ∧
       ∀ (fs : filesystem) (conn : connection) (addr : address)
         (raw : bytes) (text : str),
         recv_result conn = inl raw → decode raw = Ret text →
         sendall_calls (handle_client self fs conn addr)
         = [verdict_line D (strip text)].
Proof.
  intros path fs0 self.
  exact (static_server_always_answers fs0 0 path self eq_refl).
Defined.

(** X16.  A query that contains a line terminator is never found by a
    server built by [Server.__init__]: whenever its dataset can be
    consulted, the verdict is [STRING NOT FOUND]. *)
Theorem multi_line_query_not_found
    (fs0 fs : filesystem) (ssl reread : Z) (path : str) (self : Server)
    (D : list str) (q : str) (c : char) :
  (Server_init fs0 ssl reread path).2 = Ret self →
  consults self fs D →
  c ∈ q → is_linebreak c = true →
  (process_query self fs q).2 = Ret STRING_NOT_FOUND.
Proof.
  rewrite server_init_cases. intros Hinit HD Hc Hbreak.
  rewrite (process_query_consults self fs D q HD). cbn [snd].
  unfold verdict. rewrite bool_decide_eq_false_2; [done|].
  intros Hin.
  assert (∃ fs', (read_file fs' path).2 = Ret D) as [fs' Hread].
  { destruct (decide (reread = 0)) as [->|Hre].
    - rewrite bool_decide_eq_true_2 in Hinit by done. cbn [snd] in Hinit.
      destruct (read_file fs0 path).2 as [D0| |] eqn:HD0; try done.
      injection Hinit as <-. destruct HD as [[_ [= <-]]|[? _]]; [|done].
      by exists fs0.
    - rewrite bool_decide_eq_false_2 in Hinit by done.
      injection Hinit as <-. destruct HD as [[? _]|[_ HD]]; [done|].
      by exists fs. }
  pose proof (read_file_no_break fs' path D Hread q c Hin Hc).
  congruence.
Qed.

Lemma multi_line_query_not_found_witness :
  let path := str_of "200k.txt" in
  let fs : filesystem :=
    {[ path := Readable (str_of "a" ++ [10%N] ++ str_of "b") ]} in
  let self := {| ssl_enabled := 0; reread_on_query := 1; file_path := path;
                 file_contents := None |} in
  (process_query self fs (str_of "a" ++ [10%N] ++ str_of "b")).2
  = Ret STRING_NOT_FOUND.
Proof.
  intros path fs self.
  apply (multi_line_query_not_found fs fs 0 1 path self
           [str_of "a"; str_of "b"] _ 10%N).
  - reflexivity.
  - right. split; [discriminate|reflexivity].
  - right. left.
  - reflexivity.
Defined.

(** ** Whitespace around the query *)

Lemma lstrip_app_space (pre s : str) :
  Forall (λ c, isspace c = true) pre → lstrip (pre ++ s) = lstrip s.
Proof.
  induction 1 as [|c pre Hc Hpre IH]; [done|]. simpl. by rewrite Hc.
Qed.

Lemma rstrip_app_space (s post : str) :
  Forall (λ c, isspace c = true) post → rstrip (s ++ post) = rstrip s.
Proof.
  intros Hpost. unfold rstrip. rewrite reverse_app.
  rewrite lstrip_app_space; [done|]. by apply Forall_reverse.
Qed.

Lemma strip_padding (pre s post : str) :
  Forall (λ c, isspace c = true) pre →
  Forall (λ c, isspace c = true) post →
  strip (pre ++ s ++ post) = strip s.
Proof.
  intros Hpre Hpost. unfold strip. rewrite lstrip_app_space by done.
  induction s as [|c s IH].
  - simpl. rewrite <- (app_nil_r post) at 1.
    by rewrite lstrip_app_space.
  - simpl. destruct (isspace c); [exact IH|].
    by apply (rstrip_app_space (c :: s)).
Qed.

Lemma handle_client_body_data (self : Server) (fs : filesystem)
    (conn : connection) (addr : address) (raw : bytes) (text : str) :
  recv_result conn = inl raw → decode raw = Ret text →
  handle_client_body self fs conn addr =
    (_ ← emit (EvRecv 1024);
     response ← process_query self fs (strip text);
     encoded ← lift (encode response);
     _ ← conn_sendall conn (encoded ++ [x0a]);
     log_query (strip text) addr).
Proof.
  intros Hr Ht. unfold handle_client_body, conn_recv. rewrite Hr.
  cbn -[decode process_query strip encode conn_sendall log_query].
  rewrite Ht.
  cbn -[process_query strip encode conn_sendall log_query].
  by destruct (process_query self fs (strip text) ≫= _).
Qed.

(** X17.  Whitespace before and after the query in the payload has no
    effect: two connections whose decoded payloads differ by such
    whitespace only are handled in the same way, event for event. *)
Theorem handler_ignores_padding
    (self : Server) (fs : filesystem) (conn conn' : connection)
    (addr : address) (raw raw' : bytes) (text pre post : str) :
  recv_result conn = inl raw → decode raw = Ret text →
  recv_result conn' = inl raw' → decode raw' = Ret (pre ++ text ++ post) →
  Forall (λ c, isspace c = true) pre →
  Forall (λ c, isspace c = true) post →
  sendall_result conn' = sendall_result conn →
  handle_client self fs conn' addr = handle_client self fs conn addr.
Proof.
  intros Hr Ht Hr' Ht' Hpre Hpost Hsend. unfold handle_client.
  rewrite (handle_client_body_data self fs conn addr raw text Hr Ht).
  rewrite (handle_client_body_data self fs conn' addr raw' _ Hr' Ht').
  rewrite strip_padding by done.
  unfold conn_sendall. by rewrite Hsend.
Qed.

Lemma handler_ignores_padding_witness :
  let self := {| ssl_enabled := 0; reread_on_query := 0;
                 file_path := str_of "200k.txt";
                 file_contents := Some [str_of "abc"] |} in
  let conn := {| recv_result := inl (bytes_of "abc");
                 sendall_result := None |} in
  let conn' := {| recv_result := inl (bytes_of "  abc" ++ [x0d; x0a]);
                  sendall_result := None |} in
  let addr : address := (str_of "127.0.0.1", 50000) in
  handle_client self ∅ conn' addr = handle_client self ∅ conn addr.
Proof.
  intros self conn conn' addr.
  apply (handler_ignores_padding self ∅ conn conn' addr
           (bytes_of "abc") (bytes_of "  abc" ++ [x0d; x0a])
           (str_of "abc") (str_of "  ") [13%N; 10%N]);
    try reflexivity; by repeat constructor.
Defined.

(** X18.  A payload that is empty or made of whitespace only is looked up
    as the empty string: when the dataset can be consulted the answer is
    [STRING EXISTS] exactly when the dataset has an empty line. *)
Theorem blank_payload_is_empty_query
    (self : Server) (fs : filesystem) (conn : connection) (addr : address)
    (raw : bytes) (text : str) (D : list str) :
  recv_result conn = inl raw → decode raw = Ret text →
  Forall (λ c, isspace c = true) text →
  consults self fs D →
  sendall_calls (handle_client self fs conn addr) = [verdict_line D []].
Proof.
  intros Hr Ht Hblank HD.
  assert (strip text = []) as Hstrip.
  { pose proof (strip_padding text [] [] Hblank (Forall_nil_2 _)) as Hs.
    by rewrite !app_nil_r in Hs. }
  destruct (handle_client_sends self fs conn addr)
    as [(e & _ & _ & [He|[(raw' & Hr' & He)|Hno]])
       |(raw' & text' & D' & Hr' & Ht' & HD' & ->)].
  - congruence.
  - congruence.
  - by destruct (Hno D).
  - rewrite (consults_unique _ _ _ _ HD' HD).
    assert (text' = text) as -> by congruence. by rewrite Hstrip.
Qed.

Lemma blank_payload_is_empty_query_witness :
  let self := {| ssl_enabled := 0; reread_on_query := 0;
                 file_path := str_of "200k.txt";
                 file_contents := Some [str_of "abc"; []] |} in
  let conn := {| recv_result := inl (bytes_of " " ++ [x0a]);
                 sendall_result := None |} in
  sendall_calls (handle_client self ∅ conn (str_of "127.0.0.1", 50000))
  = [bytes_of "STRING EXISTS" ++ [x0a]].
Proof.
  intros self conn.
  apply (blank_payload_is_empty_query self ∅ conn _ (bytes_of " " ++ [x0a])
           (str_of " " ++ [10%N]) [str_of "abc"; []]).
  - reflexivity.
  - reflexivity.
  - by repeat constructor.
  - by left.
Defined.

(** ** The accept loop *)

(** X19.  An exception raised by [accept] ends the accept loop: the
    connections accepted before it are dispatched to their handlers, the
    exception leaves [start_server], and nothing that arrives afterwards is
    served. *)
Theorem accept_failure_ends_loop
    (self : Server) (before : list arrival) (e : exn)
    (later : list accept_result) :
  accept_loop self (map Accepted before ++ AcceptRaises e :: later) =
  (concat (map (λ a, (handle_client self (arr_fs a) (arr_conn a)
                                    (arr_addr a)).1) before),
   Raise e).
Proof.
  induction before as [|a before IH].
  - reflexivity.
  - cbn [map app accept_loop concat]. unfold thread_start.
    rewrite io_bind_ret, IH. cbn [fst snd]. reflexivity.
Qed.

(** ** UTF-8 *)

Local Ltac nlia := zify; Z.to_euclidean_division_equations; lia.

Lemma in_range_true (lo hi x : N) :
  (lo ≤ x ≤ hi)%N → in_range lo hi x = true.
Proof.
  intros [? ?]. unfold in_range.
  by rewrite (proj2 (N.leb_le lo x)), (proj2 (N.leb_le x hi)).
Qed.

Lemma in_range_false (lo hi x : N) :
  (x < lo ∨ hi < x)%N → in_range lo hi x = false.
Proof.
  intros H. unfold in_range. apply andb_false_iff.
  destruct H; [left|right]; by apply N.leb_gt.
Qed.

Lemma byte_of_to_N (n : N) : (n < 256)%N → Byte.to_N (byte_of n) = n.
Proof.
  intros Hn. unfold byte_of.
  destruct (Byte.of_N n) as [b|] eqn:E.
  - simpl. by apply Byte.to_of_N.
  - apply Byte.of_N_None_iff in E. lia.
Qed.

Lemma decode_encode_char (c : char) (bs rest : bytes) :
  encode_char c = Ret bs →
  decode (bs ++ rest) = (s ← decode rest; Ret (c :: s)).
Proof.
  unfold encode_char.
  destruct (N.ltb_spec c 128) as [H1|H1].
  { intros [= <-]. cbn [app decode]. rewrite byte_of_to_N by lia.
    by rewrite (proj2 (N.ltb_lt c 128)) by lia. }
  destruct (N.ltb_spec c 2048) as [H2|H2].
  { intros [= <-]. cbn [app decode]. unfold cont.
    rewrite !byte_of_to_N by nlia.
    rewrite (proj2 (N.ltb_ge _ 128)) by nlia.
    rewrite !in_range_true by nlia.
    destruct (decode rest); cbn; [do 2 f_equal; nlia|done..]. }
  destruct (N.ltb_spec c 65536) as [H3|H3].
  { destruct (in_range 55296 57343 c) eqn:Hsur; [done|].
    assert (c < 55296 ∨ 57343 < c)%N as Hc.
    { unfold in_range in Hsur. apply andb_false_iff in Hsur.
      destruct Hsur as [?%N.leb_gt|?%N.leb_gt]; lia. }
    intros [= <-]. cbn [app decode]. unfold cont.
    rewrite !byte_of_to_N by nlia.
    rewrite (proj2 (N.ltb_ge _ 128)) by nlia.
    rewrite (in_range_false 194 223) by nlia.
    rewrite (in_range_true 224 239) by nlia.
    rewrite (in_range_true 128 191) by nlia.
    rewrite in_range_true.
    2:{ destruct (N.eqb_spec (224 + c `div` 4096) 224),
          (N.eqb_spec (224 + c `div` 4096) 237); nlia. }
    cbn [andb].
    destruct (decode rest); cbn; [do 2 f_equal; nlia|done..]. }
  destruct (N.ltb_spec c 1114112) as [H4|H4]; [|done].
  intros [= <-]. cbn [app decode]. unfold cont.
  rewrite !byte_of_to_N by nlia.
  rewrite (proj2 (N.ltb_ge _ 128)) by nlia.
  rewrite (in_range_false 194 223) by nlia.
  rewrite (in_range_false 224 239) by nlia.
  rewrite (in_range_true 240 244) by nlia.
  rewrite !(in_range_true 128 191) by nlia.
  rewrite in_range_true.
  2:{ destruct (N.eqb_spec (240 + c `div` 262144) 240),
        (N.eqb_spec (240 + c `div` 262144) 244); nlia. }
  cbn [andb].
  destruct (decode rest); cbn; [do 2 f_equal; nlia|done..].
Qed.

(** Decoding undoes encoding. *)
Lemma decode_encode (s : str) (bs : bytes) :
  encode s = Ret bs → decode bs = Ret s.
Proof.
  revert bs. induction s as [|c s IH]; intros bs.
  - by intros [= <-].
  - cbn [encode].
    destruct (encode_char c) as [b| |] eqn:Hc; try done.
    destruct (encode s) as [bs'| |] eqn:Hs; try done.
    cbn. intros [= <-].
    rewrite (decode_encode_char c b bs' Hc), (IH bs' eq_refl). done.
Qed.

(** * The configuration *)

Lemma split_at_first (sep : char) (a b : str) :
  sep ∉ a → split_at sep (a ++ sep :: b) = Some (a, b).
Proof.
  induction a as [|c a IH]; intros Hnot; simpl.
  - by rewrite bool_decide_eq_true_2.
  - rewrite bool_decide_eq_false_2.
    + rewrite IH; [done|]. intros ?. apply Hnot. by right.
    + intros ->. apply Hnot. left.
Qed.

Lemma split_at_parts (sep : char) (s a b : str) :
  split_at sep s = Some (a, b) → s = a ++ sep :: b ∧ sep ∉ a.
Proof.
  revert a b. induction s as [|c s IH]; intros a b; simpl; [done|].
  destruct (decide (c = sep)) as [->|Hne].
  - rewrite bool_decide_eq_true_2 by done. intros [= <- <-].
    split; [done|]. by intros ?%elem_of_nil.
  - rewrite bool_decide_eq_false_2 by done.
    destruct (split_at sep s) as [[a' b']|]; [|done].
    intros [= <- <-]. destruct (IH a' b' eq_refl) as [-> Hnot].
    split; [done|]. intros [?|?]%elem_of_cons; [congruence|done].
Qed.

Lemma split_at_elem (sep : char) (s : str) :
  sep ∈ s → ∃ a b, split_at sep s = Some (a, b).
Proof.
  induction s as [|c s IH]; [by intros ?%elem_of_nil|].
  intros Hin. simpl. destruct (decide (c = sep)) as [->|Hne].
  - rewrite bool_decide_eq_true_2 by done. by eexists _, _.
  - rewrite bool_decide_eq_false_2 by done.
    apply elem_of_cons in Hin as [?|Hin]; [congruence|].
    destruct (IH Hin) as (a & b & ->). by eexists _, _.
Qed.

Lemma lstrip_nonspace (A B : str) (c : char) :
  isspace c = false → lstrip (A ++ c :: B) = lstrip A ++ c :: B.
Proof.
  intros Hc. induction A as [|x A IH]; simpl.
  - by rewrite Hc.
  - by destruct (isspace x).
Qed.

Lemma rstrip_nonspace (A B : str) (c : char) :
  isspace c = false → rstrip (A ++ c :: B) = A ++ c :: rstrip B.
Proof.
  intros Hc. unfold rstrip.
  rewrite reverse_app, reverse_cons, <- (assoc_L (++)). simpl.
  rewrite lstrip_nonspace by done.
  rewrite reverse_app, reverse_cons, reverse_involutive.
  by rewrite <- (assoc_L (++)).
Qed.

Lemma strip_around (A B : str) (c : char) :
  isspace c = false → strip (A ++ c :: B) = lstrip A ++ c :: rstrip B.
Proof.
  intros Hc. unfold strip.
  by rewrite lstrip_nonspace, rstrip_nonspace.
Qed.

Lemma lstrip_idemp (s : str) : lstrip (lstrip s) = lstrip s.
Proof.
  induction s as [|c s IH]; [done|]. simpl.
  destruct (isspace c) eqn:Hc; [done|]. simpl. by rewrite Hc.
Qed.

Lemma strip_lstrip (s : str) : strip (lstrip s) = strip s.
Proof. unfold strip. by rewrite lstrip_idemp. Qed.

Lemma lstrip_blank (s : str) :
  Forall (λ c, isspace c = true) s → lstrip s = [].
Proof. induction 1 as [|c s Hc _ IH]; [done|]. simpl. by rewrite Hc. Qed.

Lemma lstrip_clean (s : str) :
  (∀ c, head s = Some c → isspace c = false) → lstrip s = s.
Proof.
  destruct s as [|c s]; [done|]. intros H. simpl.
  by rewrite (H c eq_refl).
Qed.

Lemma rstrip_clean (s : str) :
  (∀ c, last s = Some c → isspace c = false) → rstrip s = s.
Proof.
  intros H. unfold rstrip. rewrite lstrip_clean.
  - apply reverse_involutive.
  - intros c Hc. apply H. by rewrite <- head_reverse.
Qed.

Lemma strip_idemp (s : str) : strip (strip s) = strip s.
Proof.
  destruct (strip_spec s) as (_ & Hhead & Hlast).
  unfold strip at 1. by rewrite lstrip_clean, rstrip_clean.
Qed.

Lemma strip_rstrip (s : str) : strip (rstrip s) = strip s.
Proof.
  destruct (strip_spec s) as ((pre & post & Heq & Hpre & Hpost) & _ & Hlast).
  rewrite Heq at 1. rewrite (assoc_L (++)), rstrip_app_space by done.
  destruct (strip s) as [|c core] eqn:Hcore.
  - rewrite app_nil_r. unfold rstrip.
    rewrite lstrip_blank by (by apply Forall_reverse). done.
  - rewrite rstrip_clean.
    + rewrite <- Hcore.
      pose proof (strip_padding pre (strip s) [] Hpre (Forall_nil_2 _)) as Hs.
      rewrite app_nil_r in Hs. rewrite Hs. apply strip_idemp.
    + intros x Hx. apply Hlast. rewrite last_app in Hx.
      destruct (last (c :: core)) eqn:El; [done|].
      by apply last_None in El.
Qed.

Lemma lstrip_subseteq (s : str) (c : char) : c ∈ lstrip s → c ∈ s.
Proof.
  induction s as [|x s IH]; [done|]. simpl.
  destruct (isspace x); [|done]. intros ?. right. by apply IH.
Qed.

Lemma equals_not_space : isspace 61%N = false.
Proof. reflexivity. Qed.

Lemma load_config_line_split (config : gmap str str) (a b : str) :
  61%N ∉ a →
  load_config_line config (a ++ 61%N :: b)
  = inl (<[strip a := strip b]> config).
Proof.
  intros Hnot. unfold load_config_line.
  rewrite bool_decide_eq_true_2.
  2:{ apply elem_of_app. right. left. }
  rewrite strip_around by apply equals_not_space.
  unfold split_once. rewrite split_at_first.
  - by rewrite strip_lstrip, strip_rstrip.
  - intros Hin. by apply Hnot, lstrip_subseteq.
Qed.

Lemma load_config_line_cases (config : gmap str str) (line : str) :
  ((61%N ∉ line) ∧ load_config_line config line = inl config) ∨
  (∃ a b : str, line = a ++ 61%N :: b ∧ (61%N ∉ a) ∧
                load_config_line config line
                = inl (<[strip a := strip b]> config)).
Proof.
  destruct (decide (61%N ∈ line)) as [Hin|Hnot].
  - right. destruct (split_at_elem _ _ Hin) as (a & b & Hsplit).
    apply split_at_parts in Hsplit as [-> Ha].
    exists a, b. split; [done|]. split; [done|].
    by apply load_config_line_split.
  - left. split; [done|]. unfold load_config_line.
    by rewrite bool_decide_eq_false_2.
Qed.

Lemma load_config_lines_app (config : gmap str str) (l1 l2 : list str) :
  load_config_lines config (l1 ++ l2)
  = load_config_lines ((load_config_lines config l1).1) l2 ∧
  (load_config_lines config l1).2 = None.
Proof.
  revert config. induction l1 as [|line l1 IH]; intros config; [done|].
  cbn [app load_config_lines].
  destruct (load_config_line_cases config line)
    as [[_ ->]|(a & b & _ & _ & ->)]; apply IH.
Qed.

Lemma load_config_lines_keep (config : gmap str str) (lines : list str)
    (k v : str) :
  config !! k = Some v →
  (∀ line a b : str,
     line ∈ lines → line = a ++ 61%N :: b → 61%N ∉ a → strip a ≠ k) →
  (load_config_lines config lines).1 !! k = Some v.
Proof.
  revert config. induction lines as [|line lines IH]; intros config Hk Hother;
    [done|].
  cbn [load_config_lines].
  destruct (load_config_line_cases config line)
    as [[_ ->]|(a & b & Heq & Ha & ->)].
  - apply IH; [done|]. intros l a b Hl. apply Hother. by right.
  - apply IH.
    + rewrite lookup_insert_ne; [done|].
      apply (Hother line a b); [left|done..].
    + intros l a' b' Hl. apply Hother. by right.
Qed.

(** X20.  [load_config] accepts every file: whatever the lines are, no
    exception is raised while they are processed (the unpacking of the two
    parts of a line never fails), so the only exceptions it logs are the one
    of [get_path] and the one of opening or reading the file. *)
Theorem load_config_logs_only_io (get_path_result : str + exception)
    (f : config_file) :
  logged (load_config get_path_result f) =
  match get_path_result with
  | inr x => Some x
  | inl _ => failure f
  end.
Proof.
  unfold load_config. destruct get_path_result as [path|x]; [|done].
  pose proof (load_config_lines_app (<[str_of "linuxpath" := path]> ∅)
                (yielded f) []) as [_ Hnone].
  destruct (load_config_lines _ (yielded f)) as [config' raised].
  cbn in *. by rewrite Hnone.
Qed.

(** X21.  A line that contains [=] defines one entry: the key is the text
    before the first [=] and the value the text after it, both without the
    whitespace around them; further [=] signs belong to the value.  A line
    without [=] changes nothing. *)
Theorem load_config_line_entry (config : gmap str str) (line : str) :
  (61%N ∉ line → load_config_line config line = inl config) ∧
  (∀ a b : str,
     line = a ++ 61%N :: b → 61%N ∉ a →
     load_config_line config line = inl (<[strip a := strip b]> config)).
Proof.
  split.
  - intros Hnot. unfold load_config_line.
    by rewrite bool_decide_eq_false_2.
  - intros a b -> Ha. by apply load_config_line_split.
Qed.

Lemma load_config_line_entry_witness :
  load_config_line ∅ (str_of " key = a=b " ++ [10%N])
  = inl (<[str_of "key" := str_of "a=b"]> ∅) ∧
  load_config_line ∅ (str_of "[DEFAULT]" ++ [10%N]) = inl ∅.
Proof.
  split.
  - exact (proj2 (load_config_line_entry ∅ (str_of " key = a=b " ++ [10%N]))
             (str_of " key ") (str_of " a=b " ++ [10%N]) eq_refl
             ltac:(compute_done)).
  - apply load_config_line_entry. compute_done.
Defined.

(** X22.  In the dictionary that [load_config] returns, a key holds the
    value of the last line that defines it; the value that [get_path]
    returned for [linuxpath] is kept only when no line of the file defines
    [linuxpath]. *)
Theorem load_config_last_definition
    (path : str) (f : config_file) :
  (∀ (before after : list str) (a b : str),
     yielded f = before ++ (a ++ 61%N :: b) :: after → 61%N ∉ a →
     (∀ line a' b' : str,
        line ∈ after → line = a' ++ 61%N :: b' → 61%N ∉ a' →
        strip a' ≠ strip a) →
     config (load_config (inl path) f) !! strip a = Some (strip b)) ∧
  ((∀ line a b : str,
      line ∈ yielded f → line = a ++ 61%N :: b → 61%N ∉ a →
      strip a ≠ str_of "linuxpath") →
   config (load_config (inl path) f) !! str_of "linuxpath" = Some path).
Proof.
  unfold load_config. split.
  - intros before after a b Hlines Ha Hafter. rewrite Hlines.
    destruct (load_config_lines_app (<[str_of "linuxpath" := path]> ∅)
                before ((a ++ 61%N :: b) :: after)) as [Happ _].
    rewrite Happ. cbn [load_config_lines].
    rewrite load_config_line_split by done.
    pose proof (load_config_lines_keep
                  (<[strip a := strip b]>
                     (load_config_lines
                        (<[str_of "linuxpath" := path]> ∅) before).1)
                  after (strip a) (strip b) (lookup_insert_eq _ _ _) Hafter)
      as Hkeep.
    by destruct (load_config_lines _ after).
  - intros Hnone.
    pose proof (load_config_lines_keep (<[str_of "linuxpath" := path]> ∅)
                  (yielded f) (str_of "linuxpath") path
                  (lookup_insert_eq _ _ _) Hnone) as Hkeep.
    by destruct (load_config_lines _ (yielded f)).
Qed.

Lemma load_config_last_definition_witness :
  let f := {| yielded := [str_of "linuxpath=./200k.txt" ++ [10%N];
                          str_of "REREAD_ON_QUERY=0" ++ [10%N];
                          str_of "REREAD_ON_QUERY = 1"];
              failure := None |} in
  config (load_config (inl (str_of "/data/200k.txt")) f)
    !! str_of "REREAD_ON_QUERY" = Some (str_of "1") ∧
  config (load_config (inl (str_of "/data/200k.txt")) f)
    !! str_of "linuxpath" = Some (str_of "./200k.txt").
Proof.
  intros f.
  destruct (load_config_last_definition (str_of "/data/200k.txt") f)
    as [Hlast _].
  split.
  - apply (Hlast [str_of "linuxpath=./200k.txt" ++ [10%N];
                  str_of "REREAD_ON_QUERY=0" ++ [10%N]] []
                 (str_of "REREAD_ON_QUERY ") (str_of " 1")).
    + reflexivity.
    + compute_done.
    + by intros line a' b' ?%elem_of_nil.
  - apply (Hlast [] [str_of "REREAD_ON_QUERY=0" ++ [10%N];
                     str_of "REREAD_ON_QUERY = 1"]
                 (str_of "linuxpath") (str_of "./200k.txt" ++ [10%N])).
    + reflexivity.
    + compute_done.
    + intros line a' b' Hline -> Ha' Hkey.
      apply elem_of_cons in Hline as [Hline|Hline].
      * apply (f_equal (split_at 61%N)) in Hline.
        rewrite split_at_first in Hline by done.
        vm_compute in Hline. injection Hline as -> ->.
        vm_compute in Hkey. discriminate.
      * apply list_elem_of_singleton in Hline.
        apply (f_equal (split_at 61%N)) in Hline.
        rewrite split_at_first in Hline by done.
        vm_compute in Hline. injection Hline as -> ->.
        vm_compute in Hkey. discriminate.
Defined.

(** [test_load_config]: the three lines of the test, the last one without
    terminator. *)
Example test_load_config :
  let f := {| yielded := [str_of "linuxpath=./200k.txt" ++ [10%N];
                          str_of "ssl_enabled=0" ++ [10%N];
                          str_of "REREAD_ON_QUERY=1"];
              failure := None |} in
  load_config (inl (str_of "./200k.txt")) f =
  {| config := <[str_of "REREAD_ON_QUERY" := str_of "1"]>
                 (<[str_of "ssl_enabled" := str_of "0"]>
                    (<[str_of "linuxpath" := str_of "./200k.txt"]> ∅));
     assigned_file_path := Some (str_of "./200k.txt");
     logged := None |}.
Proof. vm_compute. reflexivity. Qed.

(** * The client *)

Lemma act_bind_returns {Ev X A B} (t : list Ev) (a : A)
    (f : A → act Ev X B) :
  ((t, Returns a) : act Ev X A) ≫= f = (t ++ (f a).1, (f a).2).
Proof. unfold mbind, act_bind. by destruct (f a). Qed.

(** X23.  A client built by [Search.__init__] with [ssl_enabled] never
    sends a query: [send_query] connects, raises [AttributeError] because
    [self.context] is [None], and closes the connection; when the connection
    cannot be opened it raises the exception of the connection attempt. *)
Theorem tls_client_never_sends
    (host : str) (port : Z) (create_context : option exn) (self : Search)
    (net : client_network) (query : str) :
  Search_init host port true create_context = inl self →
  send_query self net query =
  match connect_result net with
  | None => ([CConnect host port; CClose], Raises AttributeError)
  | Some e => ([CConnect host port], Raises (Std e))
  end.
Proof.
  unfold Search_init. destruct create_context; [done|]. intros [= <-].
  unfold send_query. cbn [search_host search_port search_ssl_enabled
                          search_context].
  by destruct (connect_result net).
Qed.

Lemma tls_client_never_sends_witness :
  let self := {| search_host := str_of "10.0.0.1"; search_port := PORT;
                 search_ssl_enabled := true; search_context := None |} in
  let net := {| connect_result := None; handshake_result := None;
                client_sendall_result := None;
                client_recv_result := inl (bytes_of "STRING EXISTS") |} in
  send_query self net (str_of "abc") =
  ([CConnect (str_of "10.0.0.1") PORT; CClose], Raises AttributeError).
Proof.
  intros self net.
  exact (tls_client_never_sends (str_of "10.0.0.1") PORT None self net
           (str_of "abc") eq_refl).
Defined.

Lemma encode_cases (s : str) :
  (∃ bs, encode s = Ret bs) ∨ encode s = Raise UnicodeEncodeError.
Proof.
  induction s as [|c s IH]; [left; by exists []|].
  cbn [encode].
  assert ((∃ b, encode_char c = Ret b) ∨
          encode_char c = Raise UnicodeEncodeError) as [[b ->]| ->].
  { unfold encode_char. repeat case_match; eauto. }
  - destruct IH as [[bs ->]| ->]; [left|right]; eauto.
  - by right.
Qed.

Lemma exchange_cases (net : client_network) (query : str) :
  ∃ (t : list client_event) (r : ending exception str),
    exchange net query = (t, r) ∧
    Forall (λ ev, ev ≠ CClose ∧ ev ≠ CCloseTLS ∧
                  ∀ h p, ev ≠ CConnect h p) t ∧
    r ≠ Running.
Proof.
  unfold exchange.
  destruct (encode_cases query) as [[payload ->]| ->].
  2:{ eexists _, _. split; [reflexivity|]. by split. }
  cbn -[decode strip].
  destruct (client_sendall_result net) as [e|].
  { eexists _, _. split; [reflexivity|]. split; [|done].
    repeat constructor; done. }
  cbn -[decode strip].
  destruct (client_recv_result net) as [raw|e].
  2:{ eexists _, _. split; [reflexivity|]. split; [|done].
      repeat constructor; done. }
  cbn -[decode strip].
  destruct (decode_cases raw) as [[text ->]| ->];
    (eexists _, _; split; [reflexivity|]; split; [|done];
     repeat constructor; done).
Qed.

(** X24.  [send_query] closes what it opened: when the connection attempt
    fails nothing else happens and its exception is raised; otherwise the
    last action of the call is to close the socket, once, whether the query
    was answered or an exception was raised on the way. *)
Theorem send_query_closes
    (self : Search) (net : client_network) (query : str) :
  let run := send_query self net query in
  (∀ e, connect_result net = Some e →
        run = ([CConnect (search_host self) (search_port self)],
               Raises (Std e))) ∧
  (connect_result net = None →
     ∃ t, run.1 = CConnect (search_host self) (search_port self)
                  :: t ++ [CClose] ∧
          Forall (λ ev, ev ≠ CClose ∧ ∀ h p, ev ≠ CConnect h p) t).
Proof.
  intros run. subst run. unfold send_query. split.
  - by intros e ->.
  - intros ->.
    destruct (exchange_cases net query) as (t & r & Hex & Ht & _).
    destruct (search_ssl_enabled self).
    + destruct (search_context self) as [[]|].
      * destruct (handshake_result net) as [e|].
        -- exists [CWrapSocket (search_host self)]. split; [done|].
           repeat constructor; done.
        -- cbn -[exchange]. rewrite Hex. cbn.
           exists (CWrapSocket (search_host self) :: t ++ [CCloseTLS]).
           split; [reflexivity|]. constructor; [by split|].
           apply Forall_app. split.
           ++ eapply Forall_impl; [exact Ht|]. intros ev (? & ? & ?). by split.
           ++ repeat constructor; done.
      * exists []. split; [done|]. constructor.
    + cbn -[exchange]. rewrite Hex. cbn. exists t. split; [done|].
      eapply Forall_impl; [exact Ht|]. intros ev (? & ? & ?). by split.
Qed.

Lemma send_query_closes_witness :
  let self := {| search_host := str_of "10.0.0.1"; search_port := PORT;
                 search_ssl_enabled := false; search_context := None |} in
  let net := {| connect_result := None; handshake_result := None;
                client_sendall_result := None;
                client_recv_result := inr ConnectionResetError |} in
  ∃ t, (send_query self net (str_of "abc")).1
       = CConnect (str_of "10.0.0.1") PORT :: t ++ [CClose] ∧
       Forall (λ ev, ev ≠ CClose ∧ ∀ h p, ev ≠ CConnect h p) t.
Proof.
  intros self net.
  exact (proj2 (send_query_closes self net (str_of "abc")) eq_refl).
Defined.

(** ** Client and server together *)

Lemma verdict_line_decoded (D : list str) (q : str) :
  ∃ text, decode (verdict_line D q) = Ret text ∧ strip text = verdict D q.
Proof.
  unfold verdict_line, verdict.
  destruct (bool_decide (q ∈ D)); eexists; split; reflexivity.
Qed.

(** X25.  One exchange without TLS.  The client sends the encoding of its
    query; when the server receives these bytes in its one [recv] and can
    consult its dataset [D], it sends the verdict for the stripped query;
    when in turn the client receives that line, [send_query] returns the
    verdict itself, [STRING EXISTS] or [STRING NOT FOUND], and both sides
    have closed their socket.  The bounds on the payload are those under
    which one [recv(1024)] can return it whole. *)
Theorem query_round_trip
    (self : Server) (fs : filesystem) (D : list str) (addr : address)
    (client : Search) (q : str) (payload : bytes) :
  search_ssl_enabled client = false →
  encode q = Ret payload → (0 < length payload ≤ 1024)%nat →
  consults self fs D →
  let server_conn := {| recv_result := inl payload;
                        sendall_result := None |} in
  let line := verdict_line D (strip q) in
  sendall_calls (handle_client self fs server_conn addr) = [line] ∧
  last (handle_client self fs server_conn addr).1 = Some EvClose ∧
  ∀ net : client_network,
    connect_result net = None → client_sendall_result net = None →
    client_recv_result net = inl line →
    send_query client net q =
    ([CConnect (search_host client) (search_port client);
      CSendall payload; CRecv 1024; CClose],
     Returns (verdict D (strip q))).
Proof.
  intros Hplain Henc Hlen HD server_conn line.
  pose proof (decode_encode q payload Henc) as Hdec.
  split; [|split].
  - destruct (handle_client_sends self fs server_conn addr)
      as [(e & _ & _ & [He|[(raw' & Hr' & He)|Hno]])
         |(raw' & text' & D' & Hr' & Ht' & HD' & ->)].
    + done.
    + injection Hr' as <-. congruence.
    + by destruct (Hno D).
    + injection Hr' as <-. rewrite (consults_unique _ _ _ _ HD' HD).
      subst line. congruence.
  - destruct (handle_client_closes self fs server_conn addr) as (t & -> & _).
    apply last_snoc.
  - intros net Hconn Hsend Hrecv. unfold send_query.
    rewrite Hplain, Hconn. unfold exchange.
    rewrite Henc, Hsend, Hrecv.
    destruct (verdict_line_decoded D (strip q)) as (text & Htext & Hstrip).
    fold line in Htext. cbn -[decode strip]. rewrite Htext.
    cbn -[strip]. by rewrite Hstrip.
Qed.

Lemma query_round_trip_witness :
  let self := {| ssl_enabled := 0; reread_on_query := 0;
                 file_path := str_of "200k.txt";
                 file_contents := Some [str_of "7;0;21;16;0;22;4;0;"] |} in
  let client := {| search_host := str_of "10.0.0.1"; search_port := PORT;
                   search_ssl_enabled := false; search_context := None |} in
  let q := str_of "7;0;21;16;0;22;4;0;" in
  let payload := bytes_of "7;0;21;16;0;22;4;0;" in
  let server_conn := {| recv_result := inl payload;
                        sendall_result := None |} in
  let line := bytes_of "STRING EXISTS" ++ [x0a] in
  let addr : address := (str_of "10.0.0.2", 50000) in
  sendall_calls (handle_client self ∅ server_conn addr) = [line] ∧
  last (handle_client self ∅ server_conn addr).1 = Some EvClose ∧
  ∀ net : client_network,
    connect_result net = None → client_sendall_result net = None →
    client_recv_result net = inl line →
    send_query client net q =
    ([CConnect (str_of "10.0.0.1") PORT;
      CSendall payload; CRecv 1024; CClose],
     Returns STRING_EXISTS).
Proof.
  intros self client q payload server_conn line addr.
  apply (query_round_trip self ∅ [str_of "7;0;21;16;0;22;4;0;"] addr
           client q payload).
  - reflexivity.
  - reflexivity.
  - vm_compute. lia.
  - by left.
Defined.

(** * The listener *)

Lemma serve_not_returns (self : Server) (incoming : list accept_result) :
  ∀ a, (serve (accept_loop self incoming)).2 ≠ Returns a.
Proof.
  intros a. unfold serve. cbn [snd].
  assert ((accept_loop self incoming).2 ≠ Ret a) as Hloop.
  { induction incoming as [|[arr|e|arr e] rest IH]; [done| |done|done].
    cbn [accept_loop]. unfold thread_start. by rewrite io_bind_ret. }
  by destruct (accept_loop self incoming).2 as [[]| |]; destruct a.
Qed.

(** A start-up call raised: the run is a short list of start-up events,
    none of which is a handler's. *)
Local Ltac start_up_fails :=
  cbn; split; [done|]; split;
  [intros (ev & H); exfalso;
   repeat (apply elem_of_cons in H as [H|H]; [done|]);
   by apply elem_of_nil in H
  |intros Hz;
   first [done
         |split; [|split; [|intros certfile keyfile]]; intros H;
          repeat (apply elem_of_cons in H as [H|H]; [done|]);
          by apply elem_of_nil in H]].

(** X26.  [start_server] never returns: it is left by an exception or is
    still running.  A handler only runs after every start-up call has
    succeeded: creating, binding and listening on the socket and, when
    [ssl_enabled] is set, loading [ssl.pem] and [private.key] and wrapping
    the socket.  When [ssl_enabled] is not set, none of the three TLS calls
    is made. *)
Theorem start_server_start_up
    (self : Server) (host : str) (env : listener) :
  let run := start_server self host env in
  (∀ a, run.2 ≠ Returns a) ∧
  ((∃ ev, LServe ev ∈ run.1) →
     socket_result env = None ∧ bind_result env = None ∧
     listen_result env = None ∧
     (ssl_enabled self ≠ 0 →
        load_cert_chain_result env = None ∧
        wrap_socket_result env = None ∧
        LLoadCertChain (str_of "ssl.pem") (str_of "private.key") ∈ run.1)) ∧
  (ssl_enabled self = 0 →
     (LSSLContext ∉ run.1) ∧ (LWrapSocket ∉ run.1) ∧
     ∀ certfile keyfile, LLoadCertChain certfile keyfile ∉ run.1).
Proof.
  intros run. subst run. unfold start_server.
  pose proof (serve_not_returns self (accept_results env)) as Hserve.
  assert (∀ ev, ev ∈ (serve (accept_loop self (accept_results env))).1 →
                ∃ ev', ev = LServe ev') as Hevents.
  { intros ev. unfold serve. cbn [fst].
    intros (ev' & -> & _)%list_elem_of_fmap. by exists ev'. }
  destruct (serve (accept_loop self (accept_results env))) as [t r].
  cbn [fst snd] in *.
  destruct (socket_result env) as [e1|]; [start_up_fails|].
  destruct (bind_result env) as [e2|]; [start_up_fails|].
  destruct (listen_result env) as [e3|]; [start_up_fails|].
  destruct (decide (ssl_enabled self = 0)) as [Hz|Hnz].
  - rewrite bool_decide_eq_false_2 by (intros ?; done). cbn.
    split; [by destruct r|]. split; [by intros _|].
    intros _. split; [|split; [|intros certfile keyfile]]; intros H;
      repeat (apply elem_of_cons in H as [H|H]; [done|]);
      by destruct (Hevents _ H).
  - rewrite bool_decide_eq_true_2 by done.
    destruct (load_cert_chain_result env) as [e4|]; [start_up_fails|].
    destruct (wrap_socket_result env) as [e5|]; [start_up_fails|].
    cbn. split; [by destruct r|]. split; [|done].
    intros _. split; [done|]. split; [done|]. split; [done|].
    intros _. split; [done|]. split; [done|].
    do 4 right. left.
Qed.

Lemma start_server_start_up_witness :
  let self := {| ssl_enabled := 1; reread_on_query := 1;
                 file_path := str_of "200k.txt"; file_contents := None |} in
  let env := {| socket_result := None; bind_result := None;
                listen_result := None;
                load_cert_chain_result := Some FileNotFoundError;
                wrap_socket_result := None;
                accept_results := [] |} in
  start_server self (str_of "10.0.0.2") env =
    ([LSocket; LBind (str_of "10.0.0.2") 46789; LListen; LSSLContext;
      LLoadCertChain (str_of "ssl.pem") (str_of "private.key")],
     Raises FileNotFoundError) ∧
  ∀ a, (start_server self (str_of "10.0.0.2") env).2 ≠ Returns a.
Proof.
  intros self env. split; [reflexivity|].
  exact (proj1 (start_server_start_up self (str_of "10.0.0.2") env)).
Defined.
